(** * lambda-s3-archiver: a shallow embedding of [src/index.js]

    [archive] lists or receives a set of S3 keys, appends one read stream
    per key to an archiver instance, pipes the archiver into a [PassThrough]
    that is the [Body] of an [s3.upload], and settles a promise from the
    upload callback or from its own [catch].

    The embedding follows the source line by line.  The collaborators
    ([aws-sdk], [archiver], [stream]) are not part of the repository: what
    they answer is a parameter ([Env]), and what they do on their own
    between two turns of the program (the event loop) is a list of
    [Action]s chosen by a [Schedule].  The [while (true)] of the listing
    takes fuel; the [console.log] lines are left out. *)

From Stdlib Require Import ZArith NArith List String Ascii Lia.
From stdpp Require Import base option list strings gmap.
Import ListNotations.

Local Open Scope string_scope.

(** ** JavaScript values and string methods *)

Module Js.

(** The primitive values a caller can pass where a string is expected. *)
Inductive JsVal :=
| JsUndefined
| JsNull
| JsBool (b : bool)
| JsNum (z : Z)
| JsStr (s : string).

#[global] Instance JsVal_eq_dec : EqDecision JsVal.
Proof. solve_decision. Defined.


(** What the program and its collaborators throw or reject with.  The
    program builds none of them itself: [TypeError] comes from the
    language, the others from the collaborator that failed. *)
Inductive Error :=
| TypeError (msg : string)
| FormatError (msg : string)
| EnumerationFailure (msg : string)
| ReadFailure (msg : string)
| EncodeFailure (msg : string)
| UploadFailure (msg : string)
| CallbackError (msg : string).

#[global] Instance Error_eq_dec : EqDecision Error.
Proof. solve_decision. Defined.

(** [String.prototype.toLowerCase], on the ASCII letters.  A code unit
    outside ASCII never lowers to a letter of ['zip'] or ['tar'], so the
    membership test of the source is the same on every string. *)
Definition lower_ascii (c : ascii) : ascii :=
  let n := nat_of_ascii c in
  if andb (Nat.leb 65 n) (Nat.leb n 90) then ascii_of_nat (n + 32) else c.

Fixpoint toLowerCase (s : string) : string :=
  match s with
  | EmptyString => EmptyString
  | String c s' => String (lower_ascii c) (toLowerCase s')
  end.

Definition upper_ascii (c : ascii) : ascii :=
  let n := nat_of_ascii c in
  if andb (Nat.leb 97 n) (Nat.leb n 122) then ascii_of_nat (n - 32) else c.

Fixpoint toUpperCase (s : string) : string :=
  match s with
  | EmptyString => EmptyString
  | String c s' => String (upper_ascii c) (toUpperCase s')
  end.

(** [Array.prototype.includes] on an array of strings. *)
Definition includes (l : list string) (x : string) : bool :=
  existsb (String.eqb x) l.

(** [s.lastIndexOf(pat)]: the greatest index at which [pat] occurs in
    [s], or [-1]. *)
Fixpoint lastIndexOf_from (pat s : string) (i best : Z) : Z :=
  match s with
  | EmptyString => if String.prefix pat s then i else best
  | String _ s' =>
      lastIndexOf_from pat s' (i + 1) (if String.prefix pat s then i else best)
  end.

Definition lastIndexOf (s pat : string) : Z :=
  lastIndexOf_from pat s 0 (-1).

(** [s.substring(start)]: [start] is clamped to [0 .. s.length]. *)
Fixpoint drop_string (n : nat) (s : string) : string :=
  match n, s with
  | O, _ => s
  | S n', String _ s' => drop_string n' s'
  | S _, EmptyString => EmptyString
  end.

Definition substring (s : string) (start : Z) : string :=
  drop_string (Z.to_nat (Z.max 0 start)) s.

End Js.
Export Js.

(** ** The collaborators' data *)

Module S3.

(** The two streams an upload [Body] can be: the [PassThrough] that
    [archive] creates, or a stream of the caller's own. *)
Inductive StreamRef :=
| OutputStream
| ForeignStream (id : nat).

#[global] Instance StreamRef_eq_dec : EqDecision StreamRef.
Proof. solve_decision. Defined.

(** A value of the [params] object handed to [s3.upload]. *)
Inductive ParamVal :=
| PVal (v : JsVal)
| PStream (s : StreamRef).

#[global] Instance ParamVal_eq_dec : EqDecision ParamVal.
Proof. solve_decision. Defined.

(** The token sent with a listing request: [null] on the first call,
    afterwards whatever [NextContinuationToken] held ([None] when the
    response had no such field). *)
Inductive ContinuationToken :=
| CTNull
| CTNext (t : option string).

#[global] Instance ContinuationToken_eq_dec : EqDecision ContinuationToken.
Proof. solve_decision. Defined.

(** [s3ObjectsProps]; [Prefix] is set only for a non-empty [sourcePath]. *)
Record ListProps := {
  lp_Bucket : string;
  lp_ContinuationToken : ContinuationToken;
  lp_Prefix : option string
}.

#[global] Instance ListProps_eq_dec : EqDecision ListProps.
Proof. solve_decision. Defined.

Record S3Object := { Key : string }.

(** The fields of a [listObjectsV2] response that the program reads. *)
Record ListOutput := {
  Contents : list S3Object;
  NextContinuationToken : option string;
  IsTruncated : bool
}.

(** The stream made by the [i]-th
    [s3.getObject({Bucket, Key}).createReadStream()] of the run. *)
Record ReadStream := {
  rs_index : nat;
  rs_Bucket : string;
  rs_Key : string
}.

#[global] Instance ReadStream_eq_dec : EqDecision ReadStream.
Proof. solve_decision. Defined.

(** [data] of a successful upload callback. *)
Record UploadData := {
  data_Bucket : string;
  data_Key : string
}.

(** The object [archive] resolves with. *)
Record ArchiveResult := {
  s3Bucket : string;
  fileKey : string;
  fileSize : N
}.

End S3.
Export S3.

(** Every call the program makes on a collaborator, in program order. *)
Inductive Event :=
| EvArchiver (format : string)                 (* archiver(format) *)
| EvPassThrough                                (* new PassThrough() *)
| EvUpload (params : gmap string ParamVal)     (* s3.upload(params, cb) *)
| EvPipe                                       (* streamArchiver.pipe(outputStream) *)
| EvList (props : ListProps)                   (* s3.listObjectsV2(props).promise() *)
| EvGetObject (stream : ReadStream)            (* s3.getObject(..).createReadStream() *)
| EvTransform (key : string)                   (* archiverOptions.s3FileNameTransform(key) *)
| EvAppend (stream : ReadStream) (name : string) (* streamArchiver.append(stream, {name}) *)
| EvFinalize.                                  (* streamArchiver.finalize() *)

#[global] Instance Event_eq_dec : EqDecision Event.
Proof. solve_decision. Defined.

(** What the collaborators answer.  A call that can throw in the
    program's own turn answers [Some] error when it does; the listing
    answers the [i]-th call of the run by a page or by a rejection;
    [read_stream] is what a read stream yields when the encoder later
    consumes it: its size, or the failure it emits. *)
Record Env := {
  archiver_create : string -> option Error;           (* archiver(format) *)
  upload_check : gmap string ParamVal -> option Error; (* s3.upload(params, cb) *)
  listObjectsV2 : nat -> ListProps -> Error + ListOutput;
  createReadStream : ReadStream -> option Error;      (* ....createReadStream() *)
  append_check : ReadStream -> string -> option Error; (* streamArchiver.append *)
  read_stream : ReadStream -> Error + N;
  entry_bytes : string -> N -> N;   (* bytes emitted for an entry: name, size *)
  trailer_bytes : N;                (* bytes emitted by finalize *)
  foreign_size : nat -> N           (* length of a stream of the caller's own *)
}.

(** ** The state of one invocation *)

Inductive Promise :=
| Pending
| Resolved (r : ArchiveResult)
| Rejected (e : Error).

Inductive EncStatus :=
| EncOpen
| EncEnded
| EncErrored (e : Error).

Inductive SinkStatus :=
| SinkIdle
| SinkUploading (params : gmap string ParamVal)
| SinkCalledBack.

Record World := {
  trace : list Event;          (* collaborator calls so far, oldest first *)
  promise : Promise;           (* the promise returned by archive *)
  enc_queue : list (ReadStream * string);  (* appended, not yet encoded *)
  enc_finalized : bool;
  enc_status : EncStatus;
  enc_pointer : N;             (* streamArchiver.pointer() *)
  piped : bool;                (* streamArchiver.pipe(outputStream) was called *)
  in_flight : N;               (* emitted by the encoder, not yet read by the sink *)
  sink : SinkStatus;
  sink_received : N;           (* bytes the upload has read from its Body *)
  awaits : nat                 (* listing calls awaited so far *)
}.

Definition initial : World :=
  {| trace := []; promise := Pending; enc_queue := []; enc_finalized := false;
     enc_status := EncOpen; enc_pointer := 0%N; piped := false; in_flight := 0%N;
     sink := SinkIdle; sink_received := 0%N; awaits := 0 |}.

Definition log (ev : Event) (w : World) : World :=
  {| trace := (trace w ++ [ev])%list; promise := promise w; enc_queue := enc_queue w;
     enc_finalized := enc_finalized w; enc_status := enc_status w;
     enc_pointer := enc_pointer w; piped := piped w; in_flight := in_flight w;
     sink := sink w; sink_received := sink_received w; awaits := awaits w |}.

(** [resolve] and [reject] of the promise: the first call wins. *)
Definition settle (p : Promise) (w : World) : World :=
  match promise w with
  | Pending =>
      {| trace := trace w; promise := p; enc_queue := enc_queue w;
         enc_finalized := enc_finalized w; enc_status := enc_status w;
         enc_pointer := enc_pointer w; piped := piped w; in_flight := in_flight w;
         sink := sink w; sink_received := sink_received w; awaits := awaits w |}
  | _ => w
  end.

Definition resolve (r : ArchiveResult) : World -> World := settle (Resolved r).
Definition reject (e : Error) : World -> World := settle (Rejected e).

(** The callback given to [s3.upload] (lines 59-69); its two arguments
    [(error, data)] are one sum. *)
Definition upload_callback (outcome : Error + UploadData) (w : World) : World :=
  match outcome with
  | inl error => reject error w
  | inr data =>
      resolve {| s3Bucket := data_Bucket data;
                 fileKey := data_Key data;
                 fileSize := enc_pointer w |} w
  end.

(** ** The event loop: what the collaborators do between two turns

    Modelled from the spec: what the Archive Encoder and the Upload Sink
    do on their own (spec sections 4.2 to 4.4 and 5).  They are the
    packages [archiver] and [aws-sdk], whose code is not in the
    repository.  The encoder drains its queue one entry at a time, reads
    each stream lazily, counts the bytes it emits and ends after
    [finalize]; the upload reads its [Body], commits once the [Body] has
    ended, and calls back once.  None of these steps is taken by the
    program: they happen while it awaits a listing page, or after its
    executor has returned.  Only byte counts are kept, not the bytes. *)

Inductive Action :=
| EncoderEntry                  (* the encoder consumes the next queued stream *)
| EncoderEnd                    (* queue empty and finalized: trailer, end of stream *)
| SinkRead (n : N)              (* the upload reads n bytes of its Body *)
| SinkDone (data : UploadData)  (* the store committed the object: cb(null, data) *)
| SinkFail (e : Error).         (* the upload failed: cb(e) *)

Record Schedule := {
  during_await : nat -> list Action;  (* while the i-th listing call is awaited *)
  after_return : list Action          (* once the executor has returned *)
}.

Definition upd_encoder (q : list (ReadStream * string)) (st : EncStatus)
    (emitted : N) (w : World) : World :=
  {| trace := trace w; promise := promise w; enc_queue := q;
     enc_finalized := enc_finalized w; enc_status := st;
     enc_pointer := enc_pointer w + emitted; piped := piped w;
     in_flight := in_flight w + emitted;
     sink := sink w; sink_received := sink_received w; awaits := awaits w |}.

Definition upd_sink (s : SinkStatus) (taken : N) (from_pipe : bool)
    (w : World) : World :=
  {| trace := trace w; promise := promise w; enc_queue := enc_queue w;
     enc_finalized := enc_finalized w; enc_status := enc_status w;
     enc_pointer := enc_pointer w; piped := piped w;
     in_flight := if from_pipe then in_flight w - taken else in_flight w;
     sink := s; sink_received := sink_received w + taken; awaits := awaits w |}.

(** The length of a [Body] that is not the program's own stream; [None]
    for a value that cannot be uploaded. *)
Definition body_size (env : Env) (b : ParamVal) : option N :=
  match b with
  | PVal (JsStr s) => Some (N.of_nat (String.length s))
  | PStream (ForeignStream id) => Some (foreign_size env id)
  | _ => None
  end.

(** The upload has read its whole [Body] and seen its end. *)
Definition body_complete (env : Env) (params : gmap string ParamVal)
    (w : World) : bool :=
  match params !! "Body" with
  | Some (PStream OutputStream) =>
      match enc_status w with
      | EncEnded => piped w && (in_flight w =? 0)%N
      | _ => false
      end
  | Some b =>
      match body_size env b with
      | Some total => (sink_received w =? total)%N
      | None => false
      end
  | None => false
  end.

Definition act (env : Env) (a : Action) (w : World) : World :=
  match a with
  | EncoderEntry =>
      match enc_status w, enc_queue w with
      | EncOpen, (s, name) :: q =>
          match read_stream env s with
          | inl e => upd_encoder q (EncErrored e) 0 w
          | inr size => upd_encoder q EncOpen (entry_bytes env name size) w
          end
      | _, _ => w
      end
  | EncoderEnd =>
      match enc_status w, enc_queue w, enc_finalized w with
      | EncOpen, [], true => upd_encoder [] EncEnded (trailer_bytes env) w
      | _, _, _ => w
      end
  | SinkRead n =>
      match sink w with
      | SinkUploading params =>
          match params !! "Body" with
          | Some (PStream OutputStream) =>
              if piped w && (n <=? in_flight w)%N
              then upd_sink (sink w) n true w else w
          | Some b =>
              match body_size env b with
              | Some total =>
                  if (sink_received w + n <=? total)%N
                  then upd_sink (sink w) n false w else w
              | None => w
              end
          | None => w
          end
      | _ => w
      end
  | SinkDone data =>
      match sink w with
      | SinkUploading params =>
          if body_complete env params w
          then upload_callback (inr data) (upd_sink SinkCalledBack 0 false w)
          else w
      | _ => w
      end
  | SinkFail e =>
      match sink w with
      | SinkUploading _ =>
          upload_callback (inl e) (upd_sink SinkCalledBack 0 false w)
      | _ => w
      end
  end.

Definition run_actions (env : Env) (l : list Action) (w : World) : World :=
  fold_left (fun w a => act env a w) l w.

(** ** The program's own turn: state, exceptions and [await] *)

Inductive Res (A : Type) :=
| Ret (a : A)          (* normal completion *)
| Throw (e : Error)    (* an exception, or a rejected awaited promise *)
| Running.             (* the listing loop has not finished within the fuel *)

Arguments Ret {A} a.
Arguments Throw {A} e.
Arguments Running {A}.

Definition M (A : Type) : Type := World -> Res A * World.

Definition ret {A} (a : A) : M A := fun w => (Ret a, w).

Definition throw {A} (e : Error) : M A := fun w => (Throw e, w).

Definition bind {A B} (m : M A) (k : A -> M B) : M B :=
  fun w =>
    match m w with
    | (Ret a, w') => k a w'
    | (Throw e, w') => (Throw e, w')
    | (Running, w') => (Running, w')
    end.

Declare Scope js_scope.
Delimit Scope js_scope with js.
Notation "'let*' x ':=' m 'in' k" := (bind m (fun x => k))
  (at level 10, x name, m at level 100, k at level 200) : js_scope.
Notation "m ';;' k" := (bind m (fun _ => k))
  (at level 100, k at level 200, right associativity) : js_scope.
Local Open Scope js_scope.

(** A collaborator call: it is logged, then it throws or returns. *)
Definition call (ev : Event) (answer : option Error) : M unit :=
  fun w =>
    match answer with
    | Some e => (Throw e, log ev w)
    | None => (Ret tt, log ev w)
    end.

Definition modify (f : World -> World) : M unit := fun w => (Ret tt, f w).

(** [for (let x of l) body]; the body also gets the iteration number. *)
Fixpoint for_of {A} (l : list A) (i : nat) (body : nat -> A -> M unit) : M unit :=
  match l with
  | [] => ret tt
  | x :: l' => body i x ;; for_of l' (S i) body
  end.

Definition start_upload (params : gmap string ParamVal) (w : World) : World :=
  upd_sink (SinkUploading params) 0 false w.

Definition set_piped (w : World) : World :=
  {| trace := trace w; promise := promise w; enc_queue := enc_queue w;
     enc_finalized := enc_finalized w; enc_status := enc_status w;
     enc_pointer := enc_pointer w; piped := true; in_flight := in_flight w;
     sink := sink w; sink_received := sink_received w; awaits := awaits w |}.

Definition enqueue (s : ReadStream) (name : string) (w : World) : World :=
  upd_encoder (enc_queue w ++ [(s, name)])%list (enc_status w) 0 w.

Definition set_finalized (w : World) : World :=
  {| trace := trace w; promise := promise w; enc_queue := enc_queue w;
     enc_finalized := true; enc_status := enc_status w;
     enc_pointer := enc_pointer w; piped := piped w; in_flight := in_flight w;
     sink := sink w; sink_received := sink_received w; awaits := awaits w |}.

Definition count_await (w : World) : World :=
  {| trace := trace w; promise := promise w; enc_queue := enc_queue w;
     enc_finalized := enc_finalized w; enc_status := enc_status w;
     enc_pointer := enc_pointer w; piped := piped w; in_flight := in_flight w;
     sink := sink w; sink_received := sink_received w; awaits := S (awaits w) |}.

(** [archiverOptions]: the naming callback, which may throw. *)
Record ArchiverOptions := {
  s3FileNameTransform : option (string -> Error + string)
}.

(** The arguments of [archive] as the caller passes them (lines 34-42);
    [None] (and [JsUndefined]) is an omitted argument, which takes its
    default, and for [sourcePathPrefix] any falsy value. *)
Record Request := {
  sourceBucket : string;
  sourcePathPrefix : option string;
  sourceFiles : option (list string);
  outputFilename : option string;
  outputFormat : JsVal;
  uploadOptions : option (gmap string ParamVal);
  archiverOptions : option ArchiverOptions
}.

Section Program.

Context (env : Env) (sched : Schedule).

(** [await s3.listObjectsV2(props).promise()]: the call is made, the
    event loop runs while the program is suspended, then the page or the
    rejection comes back. *)
Definition await_listObjectsV2 (props : ListProps) : M ListOutput :=
  fun w =>
    let i := awaits w in
    let w' := run_actions env (during_await sched i) (count_await (log (EvList props) w)) in
    match listObjectsV2 env i props with
    | inl e => (Throw e, w')
    | inr page => (Ret page, w')
    end.

(** Line 46: [outputFormat.toLowerCase()] exists on strings only; on
    [null] and [undefined] the property access throws, on the other
    primitives the call does. *)
Definition format_of (outputFormat : JsVal) : M string :=
  match outputFormat with
  | JsStr s =>
      ret (if includes ["zip"; "tar"] (toLowerCase s) then s else "zip")
  | JsNull =>
      throw (TypeError "Cannot read properties of null (reading 'toLowerCase')")
  | JsUndefined =>
      throw (TypeError "Cannot read properties of undefined (reading 'toLowerCase')")
  | JsBool _ | JsNum _ =>
      throw (TypeError "outputFormat.toLowerCase is not a function")
  end.

(** Lines 52-57: the caller's options are spread last and win. *)
Definition upload_params (sourceBucket outputFilePath : string)
    (uploadOptions : gmap string ParamVal) : gmap string ParamVal :=
  uploadOptions ∪
    <["Bucket" := PVal (JsStr sourceBucket)]>
    (<["Key" := PVal (JsStr outputFilePath)]>
    (<["Body" := PStream OutputStream]> ∅)).

(** Lines 79-81. *)
Definition s3ObjectsProps (sourceBucket sourcePath : string)
    (continuationToken : ContinuationToken) : ListProps :=
  {| lp_Bucket := sourceBucket;
     lp_ContinuationToken := continuationToken;
     lp_Prefix := if Nat.eqb (String.length sourcePath) 0
                  then None else Some sourcePath |}.

(** Line 85: the keys of one page, without the key equal to [sourcePath]. *)
Definition page_keys (sourcePath : string) (page : ListOutput) : list string :=
  List.filter (fun k => negb (String.eqb k sourcePath)) (map Key (Contents page)).

(** Lines 77-90: [while (true)], one turn per unit of fuel. *)
Fixpoint list_loop (fuel : nat) (sourceBucket sourcePath : string)
    (continuationToken : ContinuationToken) (sourceFiles : list string)
    : M (list string) :=
  match fuel with
  | O => fun w => (Running, w)
  | S fuel' =>
      let* s3Objects :=
        await_listObjectsV2
          (s3ObjectsProps sourceBucket sourcePath continuationToken) in
      let continuationToken := CTNext (NextContinuationToken s3Objects) in
      let sourceFiles := (sourceFiles ++ page_keys sourcePath s3Objects)%list in
      if negb (IsTruncated s3Objects)
      then ret sourceFiles
      else list_loop fuel' sourceBucket sourcePath continuationToken sourceFiles
  end.

(** Lines 73-93: the entries to archive. *)
Definition resolve_sourceFiles (fuel : nat) (sourceBucket sourcePath : string)
    (sourceFiles : list string) : M (list string) :=
  if Nat.ltb 0 (List.length sourceFiles)
  then ret (map (fun file => sourcePath +:+ file) sourceFiles)
  else list_loop fuel sourceBucket sourcePath CTNull sourceFiles.

(** Lines 99-101. *)
Definition s3FileName_of (archiverOptions : ArchiverOptions) (s3File : string)
    : M string :=
  match s3FileNameTransform archiverOptions with
  | Some transform =>
      fun w =>
        match transform s3File with
        | inl e => (Throw e, log (EvTransform s3File) w)
        | inr name => (Ret name, log (EvTransform s3File) w)
        end
  | None => ret (substring s3File (lastIndexOf s3File "/" + 1))
  end.

(** Lines 97-104: the body of the [for] loop. *)
Definition append_entry (sourceBucket : string) (archiverOptions : ArchiverOptions)
    (i : nat) (s3File : string) : M unit :=
  let fileReadStream :=
    {| rs_index := i; rs_Bucket := sourceBucket; rs_Key := s3File |} in
  call (EvGetObject fileReadStream) (createReadStream env fileReadStream) ;;
  let* s3FileName := s3FileName_of archiverOptions s3File in
  call (EvAppend fileReadStream s3FileName)
       (append_check env fileReadStream s3FileName) ;;
  modify (enqueue fileReadStream s3FileName).

(** Lines 45-106: the body of the [try]. *)
Definition try_body (fuel : nat) (req : Request) : M unit :=
  let sourceFiles := default [] (sourceFiles req) in
  let outputFilename := default "archive" (outputFilename req) in
  let outputFormat :=
    match outputFormat req with JsUndefined => JsStr "zip" | v => v end in
  let uploadOptions := default ∅ (uploadOptions req) in
  let archiverOptions :=
    default {| s3FileNameTransform := None |} (archiverOptions req) in
  let sourcePath := default EmptyString (sourcePathPrefix req) in
  let* format := format_of outputFormat in
  call (EvArchiver format) (archiver_create env format) ;;
  let outputFilePath := sourcePath +:+ outputFilename +:+ "." +:+ format in
  call EvPassThrough None ;;
  let params := upload_params (sourceBucket req) outputFilePath uploadOptions in
  call (EvUpload params) (upload_check env params) ;;
  modify (start_upload params) ;;
  call EvPipe None ;;
  modify set_piped ;;
  let* sourceFiles :=
    resolve_sourceFiles fuel (sourceBucket req) sourcePath sourceFiles in
  for_of sourceFiles 0 (append_entry (sourceBucket req) archiverOptions) ;;
  call EvFinalize None ;;
  modify set_finalized.

(** Lines 43-110: the promise executor, [try { ... } catch (error) {
    reject(error) }], up to the point where it returns. *)
Definition executor (fuel : nat) (req : Request) : World :=
  match try_body fuel req initial with
  | (Ret _, w) => w
  | (Throw error, w) => reject error w
  | (Running, w) => w
  end.

(** One invocation: the executor, then the event loop. *)
Definition archive (fuel : nat) (req : Request) : World :=
  run_actions env (after_return sched) (executor fuel req).

End Program.

(** * What is stated about a run

    The definitions below are not part of the program: they are the
    vocabulary of the properties proved in the second half of the file. *)

(** ** The calls of a run, as a function of the collaborators' answers

    The schedule decides when the encoder and the upload make progress,
    but not what the program calls: the functions below compute the
    outcome and the calls of each part of [try_body] from [Env] alone,
    and the [_spec] lemmas show that the program agrees with them in
    every world and under every schedule. *)

Section Calls.

Context (env : Env).

Fixpoint list_calls (fuel : nat) (sourceBucket sourcePath : string)
    (continuationToken : ContinuationToken) (sourceFiles : list string)
    (i : nat) : Res (list string) * list ListProps :=
  match fuel with
  | O => (Running, [])
  | S fuel' =>
      let props := s3ObjectsProps sourceBucket sourcePath continuationToken in
      match listObjectsV2 env i props with
      | inl e => (Throw e, [props])
      | inr page =>
          let sourceFiles := (sourceFiles ++ page_keys sourcePath page)%list in
          if negb (IsTruncated page) then (Ret sourceFiles, [props])
          else
            let '(r, l) :=
              list_calls fuel' sourceBucket sourcePath
                (CTNext (NextContinuationToken page)) sourceFiles (S i) in
            (r, props :: l)
      end
  end.

Definition resolve_calls (fuel : nat) (sourceBucket sourcePath : string)
    (sourceFiles : list string) (i : nat) : Res (list string) * list ListProps :=
  if Nat.ltb 0 (List.length sourceFiles)
  then (Ret (map (fun file => sourcePath +:+ file) sourceFiles), [])
  else list_calls fuel sourceBucket sourcePath CTNull sourceFiles i.

(** The name an entry gets (lines 99-101), or what the naming callback
    threw. *)
Definition name_of (archiverOptions : ArchiverOptions) (s3File : string)
    : Error + string :=
  match s3FileNameTransform archiverOptions with
  | Some transform => transform s3File
  | None => inr (substring s3File (lastIndexOf s3File "/" + 1))
  end.

Definition entry_stream (sourceBucket : string) (i : nat) (s3File : string)
    : ReadStream :=
  {| rs_index := i; rs_Bucket := sourceBucket; rs_Key := s3File |}.

Definition entry_calls (sourceBucket : string) (archiverOptions : ArchiverOptions)
    (i : nat) (s3File : string) : option Error * list Event :=
  let s := entry_stream sourceBucket i s3File in
  match createReadStream env s with
  | Some e => (Some e, [EvGetObject s])
  | None =>
      let named :=
        match s3FileNameTransform archiverOptions with
        | Some _ => [EvTransform s3File]
        | None => []
        end in
      match name_of archiverOptions s3File with
      | inl e => (Some e, EvGetObject s :: named)
      | inr name =>
          (append_check env s name,
           EvGetObject s :: named ++ [EvAppend s name])%list
      end
  end.

Fixpoint entries_calls (sourceBucket : string) (archiverOptions : ArchiverOptions)
    (i : nat) (files : list string) : option Error * list Event :=
  match files with
  | [] => (None, [])
  | s3File :: files' =>
      match entry_calls sourceBucket archiverOptions i s3File with
      | (Some e, evs) => (Some e, evs)
      | (None, evs) =>
          let '(r, evs') :=
            entries_calls sourceBucket archiverOptions (S i) files' in
          (r, evs ++ evs')%list
      end
  end.

Definition res_of (r : option Error) : Res unit :=
  match r with Some e => Throw e | None => Ret tt end.

Definition req_sourcePath (req : Request) : string :=
  default EmptyString (sourcePathPrefix req).

Definition req_sourceFiles (req : Request) : list string :=
  default [] (sourceFiles req).

Definition req_outputFilename (req : Request) : string :=
  default "archive" (outputFilename req).

Definition req_uploadOptions (req : Request) : gmap string ParamVal :=
  default ∅ (uploadOptions req).

Definition req_archiverOptions (req : Request) : ArchiverOptions :=
  default {| s3FileNameTransform := None |} (archiverOptions req).


(** The value of [format] (line 46) when [outputFormat] is, or defaults
    to, a string. *)
Definition req_format (req : Request) : Error + string :=
  match outputFormat req with
  | JsUndefined => inr "zip"
  | JsStr s => inr (if includes ["zip"; "tar"] (toLowerCase s) then s else "zip")
  | JsNull =>
      inl (TypeError "Cannot read properties of null (reading 'toLowerCase')")
  | JsBool _ | JsNum _ =>
      inl (TypeError "outputFormat.toLowerCase is not a function")
  end.

Definition req_outputFilePath (req : Request) (format : string) : string :=
  req_sourcePath req +:+ req_outputFilename req +:+ "." +:+ format.

Definition req_params (req : Request) (format : string) : gmap string ParamVal :=
  upload_params (sourceBucket req) (req_outputFilePath req format)
    (req_uploadOptions req).

(** The calls from the entry enumeration to [finalize]. *)
Definition stream_calls (fuel : nat) (req : Request) : Res unit * list Event :=
  match resolve_calls fuel (sourceBucket req) (req_sourcePath req)
          (req_sourceFiles req) 0 with
  | (Ret files, lists) =>
      match entries_calls (sourceBucket req) (req_archiverOptions req) 0 files with
      | (Some e, evs) => (Throw e, map EvList lists ++ evs)%list
      | (None, evs) => (Ret tt, map EvList lists ++ evs ++ [EvFinalize])%list
      end
  | (Throw e, lists) => (Throw e, map EvList lists)
  | (Running, lists) => (Running, map EvList lists)
  end.

(** The outcome and the calls of the whole [try] body. *)
Definition executor_calls (fuel : nat) (req : Request) : Res unit * list Event :=
  match req_format req with
  | inl e => (Throw e, [])
  | inr format =>
      match archiver_create env format with
      | Some e => (Throw e, [EvArchiver format])
      | None =>
          let params := req_params req format in
          match upload_check env params with
          | Some e => (Throw e, [EvArchiver format; EvPassThrough; EvUpload params])
          | None =>
              let '(r, evs) := stream_calls fuel req in
              (r, [EvArchiver format; EvPassThrough; EvUpload params; EvPipe] ++ evs)%list
          end
      end
  end.

End Calls.

(** [m], started in [w], ends with [r] after logging exactly [evs] and
    awaiting [k] listing calls. *)
Definition runs_as {A} (m : M A) (w : World) (r : Res A) (evs : list Event)
    (k : nat) : Prop :=
  exists w', m w = (r, w') /\ trace w' = (trace w ++ evs)%list
             /\ awaits w' = awaits w + k.

(** The part of [try_body] after the upload has been wired. *)
Definition stream_entries (env : Env) (sched : Schedule) (fuel : nat)
    (req : Request) : M unit :=
  let* sourceFiles :=
    resolve_sourceFiles env sched fuel (sourceBucket req) (req_sourcePath req)
      (req_sourceFiles req) in
  for_of sourceFiles 0
    (append_entry env (sourceBucket req) (req_archiverOptions req)) ;;
  call EvFinalize None ;;
  modify set_finalized.

(** ** Invariants *)

(** The world once the upload has been started and the pipe connected
    (line 71), before the entries are enumerated. *)
Definition init_world (req : Request) (format : string) : World :=
  set_piped
    (log EvPipe
       (start_upload (req_params req format)
          (log (EvUpload (req_params req format))
             (log EvPassThrough (log (EvArchiver format) initial))))).

(** A property of the world that the program's own calls inside the
    [for] loop cannot break. *)
Record sync_stable (I : World -> Prop) : Prop := {
  sync_log : forall ev w, I w -> I (log ev w);
  sync_enqueue : forall s name w, I w -> I (enqueue s name w)
}.

(** A property that, besides, no [await] and no step of the event loop
    can break. *)
Record stable (env : Env) (I : World -> Prop) : Prop := {
  stable_sync : sync_stable I;
  stable_await : forall w, I w -> I (count_await w);
  stable_act : forall a w, I w -> I (act env a w)
}.

Definition preserves {A} (I : World -> Prop) (m : M A) : Prop :=
  forall w r w', I w -> m w = (r, w') -> I w'.

(** Nothing has been started: the world before line 59. *)
Definition blank (w : World) : Prop :=
  promise w = Pending /\ sink w = SinkIdle /\ enc_queue w = []
  /\ enc_finalized w = false /\ enc_status w = EncOpen
  /\ enc_pointer w = 0%N /\ in_flight w = 0%N /\ sink_received w = 0%N.

(** Every byte the encoder has emitted is either still in the pipe or
    has been read by the upload, the upload reads the program's own
    stream, and a result is produced only when the pipe has been drained
    after the encoder's end. *)
Definition conserving (w : World) : Prop :=
  enc_pointer w = (in_flight w + sink_received w)%N
  /\ (forall params, sink w = SinkUploading params ->
        params !! "Body" = Some (PStream OutputStream))
  /\ (forall r, promise w = Resolved r ->
        sink w = SinkCalledBack /\ enc_status w = EncEnded
        /\ in_flight w = 0%N /\ fileSize r = enc_pointer w).

(** Before the [catch], only the upload callback can have settled the
    promise. *)
Definition settled_by_callback (w : World) : Prop :=
  promise w <> Pending -> sink w = SinkCalledBack.

(** Without [finalize] the encoder does not end. *)
Definition unfinished (w : World) : Prop :=
  enc_finalized w = false /\ enc_status w <> EncEnded.


(** ** Reading a trace *)

(** The events of the [for] loop over [files], numbered from [i]:
    opening, naming and appending one of the files. *)
Definition entry_event (b : string) (opts : ArchiverOptions)
    (files : list string) (i : nat) (ev : Event) : Prop :=
  exists j k,
    files !! j = Some k
    /\ (ev = EvGetObject (entry_stream b (i + j) k)
        \/ ev = EvTransform k
        \/ exists name, ev = EvAppend (entry_stream b (i + j) k) name
                        /\ name_of opts k = inr name).

Definition listed (t : list Event) : list ListProps :=
  flat_map (fun ev => match ev with EvList props => [props] | _ => [] end) t.

Definition opened (t : list Event) : list ReadStream :=
  flat_map (fun ev => match ev with EvGetObject s => [s] | _ => [] end) t.

Definition appended (t : list Event) : list (ReadStream * string) :=
  flat_map (fun ev => match ev with EvAppend s name => [(s, name)] | _ => [] end) t.

(** The streams of the entries [files], numbered from [i]. *)
Fixpoint entry_streams (b : string) (i : nat) (files : list string)
    : list ReadStream :=
  match files with
  | [] => []
  | k :: files' => entry_stream b i k :: entry_streams b (S i) files'
  end.

(** The first call that throws when entry [i] is processed, if any. *)
Definition entry_throws (env : Env) (b : string) (opts : ArchiverOptions)
    (i : nat) (k : string) : option Error :=
  fst (entry_calls env b opts i k).

(** The lister answers the [i]-th call, made with token [tok], by the
    first of [pages], truncated exactly when more pages follow, and
    answers the following calls by the following pages. *)
Fixpoint serves (env : Env) (b p : string) (i : nat) (tok : ContinuationToken)
    (pages : list ListOutput) : Prop :=
  match pages with
  | [] => False
  | page :: rest =>
      listObjectsV2 env i (s3ObjectsProps b p tok) = inr page
      /\ match rest with
         | [] => IsTruncated page = false
         | _ :: _ =>
             IsTruncated page = true
             /\ serves env b p (S i) (CTNext (NextContinuationToken page)) rest
         end
  end.

(** One request per page: the first with [tok], each following one with
    the [NextContinuationToken] of the page before it. *)
Fixpoint requests (b p : string) (tok : ContinuationToken)
    (pages : list ListOutput) : list ListProps :=
  match pages with
  | [] => []
  | page :: rest =>
      s3ObjectsProps b p tok
      :: requests b p (CTNext (NextContinuationToken page)) rest
  end.

Definition has_slash (s : string) : Prop := In "/"%char (list_ascii_of_string s).

(** ** Letter case *)



(** ** A concrete store, used by the examples *)

Module Demo.

Definition page (keys : list string) (next : option string) (more : bool)
    : ListOutput :=
  {| Contents := map (fun k => {| Key := k |}) keys;
     NextContinuationToken := next;
     IsTruncated := more |}.

(** Four pages under [docs/]; the first holds the directory marker. *)
Definition pages : list ListOutput :=
  [ page ["docs/"; "docs/a.txt"] (Some "t1") true;
    page ["docs/sub/b.txt"] (Some "t2") true;
    page [] (Some "t3") true;
    page ["docs/c.txt"] None false ].

(** A store whose objects all exist but one, [missing.txt], which fails
    when it is read. *)
Definition env : Env :=
  {| archiver_create := fun format =>
       if includes ["zip"; "tar"] format then None
       else Some (FormatError "format not registered");
     upload_check := fun _ => None;
     listObjectsV2 := fun i _ =>
       match nth_error pages i with
       | Some p => inr p
       | None => inl (EnumerationFailure "no such page")
       end;
     createReadStream := fun _ => None;
     append_check := fun _ name =>
       if String.eqb name EmptyString
       then Some (EncodeFailure "entry name must be a non-empty string")
       else None;
     read_stream := fun s =>
       if String.eqb (rs_Key s) "missing.txt"
       then inl (ReadFailure "NoSuchKey")
       else inr (N.of_nat (String.length (rs_Key s)));
     entry_bytes := fun name size => (N.of_nat (String.length name) + size + 100)%N;
     trailer_bytes := 22%N;
     foreign_size := fun _ => 0%N |}.


Definition done : UploadData := {| data_Bucket := "bucket"; data_Key := "key" |}.

(** The encoder drains [n] entries and ends, the upload reads [total]
    bytes and is confirmed; nothing happens during the listing. *)
Definition drain (n : nat) (total : N) : Schedule :=
  {| during_await := fun _ => [];
     after_return :=
       (repeat EncoderEntry n ++ [EncoderEnd; SinkRead total; SinkDone done])%list |}.

Definition request (prefix : option string) (files : list string)
    (format : JsVal) (opts : gmap string ParamVal) : Request :=
  {| sourceBucket := "bucket";
     sourcePathPrefix := prefix;
     sourceFiles := Some files;
     outputFilename := None;
     outputFormat := format;
     uploadOptions := Some opts;
     archiverOptions := None |}.

End Demo.

(** The naming policy of the spec's example, [fullKey.toUpperCase()]. *)
Definition upper_case_policy : ArchiverOptions :=
  {| s3FileNameTransform := Some (fun fullKey => inr (toUpperCase fullKey)) |}.

(** ** Further stores and schedules *)

(** The demo store behind a client that refuses an upload without a
    [Body] at once, like the [validateBody] of the SDK's managed upload. *)
Definition body_required_env : Env :=
  {| archiver_create := archiver_create Demo.env;
     upload_check := fun params =>
       match params !! "Body" with
       | None | Some (PVal JsNull) | Some (PVal JsUndefined) =>
           Some (UploadFailure "params.Body is required")
       | _ => None
       end;
     listObjectsV2 := listObjectsV2 Demo.env;
     createReadStream := createReadStream Demo.env;
     append_check := append_check Demo.env;
     read_stream := read_stream Demo.env;
     entry_bytes := entry_bytes Demo.env;
     trailer_bytes := trailer_bytes Demo.env;
     foreign_size := foreign_size Demo.env |}.

(** The upload fails while the first listing call is awaited. *)
Definition upload_fails_early : Schedule :=
  {| during_await := fun i =>
       match i with O => [SinkFail (UploadFailure "AccessDenied")] | _ => [] end;
     after_return := [EncoderEntry; EncoderEntry; EncoderEntry; EncoderEnd] |}.

(** ** Listing sequences *)

(** The token sent after [pages] have been received, starting from [tok]. *)
Fixpoint token_after (tok : ContinuationToken) (pages : list ListOutput)
    : ContinuationToken :=
  match pages with
  | [] => tok
  | page :: rest => token_after (CTNext (NextContinuationToken page)) rest
  end.

(** The lister serves [pages], all truncated, from the [i]-th call on,
    and rejects the call that follows them with [e]. *)
Fixpoint fails_after (env : Env) (b p : string) (i : nat)
    (tok : ContinuationToken) (pages : list ListOutput) (e : Error) : Prop :=
  match pages with
  | [] => listObjectsV2 env i (s3ObjectsProps b p tok) = inl e
  | page :: rest =>
      listObjectsV2 env i (s3ObjectsProps b p tok) = inr page
      /\ IsTruncated page = true
      /\ fails_after env b p (S i) (CTNext (NextContinuationToken page)) rest e
  end.

(** The lister says of every page that more follow. *)
Definition always_truncated (env : Env) : Prop :=
  forall i props,
    exists page, listObjectsV2 env i props = inr page /\ IsTruncated page = true.

(** The demo store when the third listing call is rejected. *)
Definition throttled_env : Env :=
  {| archiver_create := archiver_create Demo.env;
     upload_check := upload_check Demo.env;
     listObjectsV2 := fun i props =>
       if Nat.leb 2 i then inl (EnumerationFailure "SlowDown")
       else listObjectsV2 Demo.env i props;
     createReadStream := createReadStream Demo.env;
     append_check := append_check Demo.env;
     read_stream := read_stream Demo.env;
     entry_bytes := entry_bytes Demo.env;
     trailer_bytes := trailer_bytes Demo.env;
     foreign_size := foreign_size Demo.env |}.

(** A store that hands out the same truncated page for ever. *)
Definition endless_env : Env :=
  {| archiver_create := archiver_create Demo.env;
     upload_check := upload_check Demo.env;
     listObjectsV2 := fun _ _ => inr (Demo.page ["docs/a.txt"] None true);
     createReadStream := createReadStream Demo.env;
     append_check := append_check Demo.env;
     read_stream := read_stream Demo.env;
     entry_bytes := entry_bytes Demo.env;
     trailer_bytes := trailer_bytes Demo.env;
     foreign_size := foreign_size Demo.env |}.

(** ** The calls of the loop *)

(** The calls of the [for] loop on entries that all go through, each
    with the name it gets: per entry the read stream is made, then the
    naming callback is called if there is one, then the entry is
    appended. *)
Fixpoint loop_calls (b : string) (opts : ArchiverOptions) (i : nat)
    (entries : list (string * string)) : list Event :=
  match entries with
  | [] => []
  | (k, name) :: rest =>
      (EvGetObject (entry_stream b i k)
       :: match s3FileNameTransform opts with
          | Some _ => [EvTransform k]
          | None => []
          end
       ++ [EvAppend (entry_stream b i k) name])
      ++ loop_calls b opts (S i) rest
  end.

(** ** The schedule and the settled promise *)

(** The steps the schedule lets the event loop take. *)
Definition scheduled (sched : Schedule) (a : Action) : Prop :=
  In a (after_return sched) \/ exists i, In a (during_await sched i).

(** Nothing has been appended, and the encoder has emitted nothing. *)
Definition nothing_queued (w : World) : Prop :=
  appended (trace w) = [] /\ enc_queue w = [] /\ enc_finalized w = false
  /\ enc_status w = EncOpen /\ enc_pointer w = 0%N /\ in_flight w = 0%N.

(** A settled promise carries what an upload callback of the schedule
    was given, or an error that was [thrown]. *)
Definition settled_from (sched : Schedule) (thrown : Error -> Prop)
    (w : World) : Prop :=
  match promise w with
  | Pending => True
  | Resolved r =>
      sink w = SinkCalledBack
      /\ exists data,
           scheduled sched (SinkDone data)
           /\ s3Bucket r = data_Bucket data /\ fileKey r = data_Key data
  | Rejected e =>
      thrown e \/ (sink w = SinkCalledBack /\ scheduled sched (SinkFail e))
  end.

(** ** Uploads of a trace, a failed encoder *)

(** The parameters of the upload calls of a trace. *)
Definition uploads (t : list Event) : list (gmap string ParamVal) :=
  flat_map (fun ev => match ev with EvUpload params => [params] | _ => [] end) t.


(** ** The size of the archive *)

(** The bytes the encoder emits for the queued entries and the trailer,
    when all their streams can be read. *)
Fixpoint encoded_size (env : Env) (q : list (ReadStream * string)) : option N :=
  match q with
  | [] => Some (trailer_bytes env)
  | (s, name) :: q' =>
      match read_stream env s, encoded_size env q' with
      | inr size, Some rest => Some (entry_bytes env name size + rest)%N
      | _, _ => None
      end
  end.

(** The upload has been started on [params], the encoder is piped into
    its [Body], and it has neither read a byte nor called back. *)
Definition upload_waiting (params : gmap string ParamVal) (w : World) : Prop :=
  promise w = Pending /\ sink w = SinkUploading params /\ piped w = true
  /\ sink_received w = 0%N.

(** * Properties *)

(** ** The event loop never touches what the program owns *)

Section EventLoopFacts.

Context (env : Env).

Lemma settle_trace p w : trace (settle p w) = trace w.
Proof. unfold settle. destruct (promise w); reflexivity. Qed.

Lemma settle_awaits p w : awaits (settle p w) = awaits w.
Proof. unfold settle. destruct (promise w); reflexivity. Qed.


Lemma settle_settled p w : promise w <> Pending -> settle p w = w.
Proof. unfold settle. destruct (promise w); congruence. Qed.

Lemma upload_callback_trace o w : trace (upload_callback o w) = trace w.
Proof. destruct o; apply settle_trace. Qed.

Lemma upload_callback_awaits o w : awaits (upload_callback o w) = awaits w.
Proof. destruct o; apply settle_awaits. Qed.

Lemma upload_callback_settled o w :
  promise w <> Pending -> upload_callback o w = w.
Proof. destruct o; apply settle_settled. Qed.

Ltac case_act :=
  unfold act;
  repeat match goal with
  | |- context [match ?x with _ => _ end] => destruct x; try reflexivity
  end.

Lemma act_trace a w : trace (act env a w) = trace w.
Proof.
  destruct a; case_act;
    rewrite upload_callback_trace; reflexivity.
Qed.

Lemma act_awaits a w : awaits (act env a w) = awaits w.
Proof.
  destruct a; case_act;
    rewrite upload_callback_awaits; reflexivity.
Qed.

Lemma act_settled a w :
  promise w <> Pending -> promise (act env a w) = promise w.
Proof.
  intros H. destruct a; case_act;
    rewrite upload_callback_settled; auto.
Qed.

Lemma run_actions_cons a l w :
  run_actions env (a :: l) w = run_actions env l (act env a w).
Proof. reflexivity. Qed.

Lemma run_actions_app l1 l2 w :
  run_actions env (l1 ++ l2) w = run_actions env l2 (run_actions env l1 w).
Proof. unfold run_actions. apply fold_left_app. Qed.

Lemma run_actions_trace l w : trace (run_actions env l w) = trace w.
Proof.
  revert w. induction l as [|a l IH]; intros w; [reflexivity|].
  rewrite run_actions_cons, IH. apply act_trace.
Qed.

Lemma run_actions_awaits l w : awaits (run_actions env l w) = awaits w.
Proof.
  revert w. induction l as [|a l IH]; intros w; [reflexivity|].
  rewrite run_actions_cons, IH. apply act_awaits.
Qed.

Lemma run_actions_settled l w :
  promise w <> Pending -> promise (run_actions env l w) = promise w.
Proof.
  revert w. induction l as [|a l IH]; intros w H; [reflexivity|].
  rewrite run_actions_cons, IH; rewrite act_settled; auto.
Qed.

End EventLoopFacts.

(** ** The program makes the calls computed from the answers *)

Section CallsSpec.

Context (env : Env) (sched : Schedule).

Lemma runs_ret {A} (a : A) w : runs_as (ret a) w (Ret a) [] 0.
Proof.
  exists w. split; [reflexivity|]. split; [now rewrite app_nil_r | lia].
Qed.

Lemma runs_throw {A} e w : runs_as (@throw A e) w (Throw e) [] 0.
Proof.
  exists w. split; [reflexivity|]. split; [now rewrite app_nil_r | lia].
Qed.

Lemma runs_call ev ans w : runs_as (call ev ans) w (res_of ans) [ev] 0.
Proof.
  exists (log ev w). unfold call. destruct ans; simpl;
    (split; [reflexivity|]; split; [reflexivity | lia]).
Qed.

Lemma runs_modify f w :
  trace (f w) = trace w -> awaits (f w) = awaits w ->
  runs_as (modify f) w (Ret tt) [] 0.
Proof.
  intros Ht Ha. exists (f w). split; [reflexivity|].
  rewrite Ht, Ha. split; [now rewrite app_nil_r | lia].
Qed.

Lemma runs_bind {A B} (m : M A) (f : A -> M B) w a evs k r evs' k' :
  runs_as m w (Ret a) evs k ->
  (forall w', trace w' = (trace w ++ evs)%list -> awaits w' = awaits w + k ->
              runs_as (f a) w' r evs' k') ->
  runs_as (bind m f) w r (evs ++ evs')%list (k + k').
Proof.
  intros (w1 & Hm & Ht & Ha) Hf.
  destruct (Hf w1 Ht Ha) as (w2 & Hf2 & Ht2 & Ha2).
  exists w2. unfold bind. rewrite Hm. split; [exact Hf2|].
  rewrite Ht2, Ht, Ha2, Ha. split; [now rewrite app_assoc | lia].
Qed.

Lemma runs_bind_throw {A B} (m : M A) (f : A -> M B) w e evs k :
  runs_as m w (Throw e) evs k -> runs_as (bind m f) w (Throw e) evs k.
Proof.
  intros (w1 & Hm & Ht & Ha). exists w1. unfold bind. rewrite Hm. auto.
Qed.

Lemma runs_bind_running {A B} (m : M A) (f : A -> M B) w evs k :
  runs_as m w Running evs k -> runs_as (bind m f) w Running evs k.
Proof.
  intros (w1 & Hm & Ht & Ha). exists w1. unfold bind. rewrite Hm. auto.
Qed.

Lemma runs_await props w :
  runs_as (await_listObjectsV2 env sched props) w
    (match listObjectsV2 env (awaits w) props with
     | inl e => Throw e
     | inr page => Ret page
     end) [EvList props] 1.
Proof.
  unfold runs_as, await_listObjectsV2.
  eexists. split.
  - destruct (listObjectsV2 env (awaits w) props); reflexivity.
  - rewrite run_actions_trace, run_actions_awaits. simpl. split; [reflexivity|lia].
Qed.

Lemma runs_as_eq {A} (m : M A) w r evs k evs' k' :
  runs_as m w r evs k -> evs = evs' -> k = k' -> runs_as m w r evs' k'.
Proof. intros H -> ->. exact H. Qed.

Lemma list_loop_spec fuel b p : forall tok acc w,
  runs_as (list_loop env sched fuel b p tok acc) w
    (fst (list_calls env fuel b p tok acc (awaits w)))
    (map EvList (snd (list_calls env fuel b p tok acc (awaits w))))
    (List.length (snd (list_calls env fuel b p tok acc (awaits w)))).
Proof.
  induction fuel as [|fuel IH]; intros tok acc w.
  - exists w. simpl. split; [reflexivity|]. split; [now rewrite app_nil_r | lia].
  - cbn [list_loop list_calls].
    pose proof (runs_await (s3ObjectsProps b p tok) w) as Haw.
    destruct (listObjectsV2 env (awaits w) (s3ObjectsProps b p tok)) as [e|page].
    + apply runs_bind_throw. exact Haw.
    + destruct (IsTruncated page) eqn:Htr; simpl negb; cbv iota.
      * destruct (list_calls env fuel b p (CTNext (NextContinuationToken page))
                    (acc ++ page_keys p page) (S (awaits w))) as [r l] eqn:Hl.
        cbn [fst snd].
        eapply runs_as_eq; [eapply runs_bind; [exact Haw|] | |].
        -- intros w' _ Ha. rewrite Htr. simpl negb. cbv iota.
           specialize (IH (CTNext (NextContinuationToken page))
                          (acc ++ page_keys p page)%list w').
           replace (awaits w') with (S (awaits w)) in IH by lia.
           rewrite Hl in IH. exact IH.
        -- reflexivity.
        -- reflexivity.
      * cbn [fst snd].
        eapply runs_as_eq; [eapply runs_bind; [exact Haw|] | |].
        -- intros w' _ _. rewrite Htr. simpl negb. cbv iota. apply runs_ret.
        -- reflexivity.
        -- reflexivity.
Qed.

Lemma resolve_sourceFiles_spec fuel b p files w :
  runs_as (resolve_sourceFiles env sched fuel b p files) w
    (fst (resolve_calls env fuel b p files (awaits w)))
    (map EvList (snd (resolve_calls env fuel b p files (awaits w))))
    (List.length (snd (resolve_calls env fuel b p files (awaits w)))).
Proof.
  unfold resolve_sourceFiles, resolve_calls.
  destruct (Nat.ltb 0 (List.length files)).
  - apply runs_ret.
  - apply list_loop_spec.
Qed.

Lemma s3FileName_of_spec opts k w :
  runs_as (s3FileName_of opts k) w
    (match name_of opts k with inl e => Throw e | inr name => Ret name end)
    (match s3FileNameTransform opts with
     | Some _ => [EvTransform k]
     | None => []
     end) 0.
Proof.
  unfold s3FileName_of, name_of.
  destruct (s3FileNameTransform opts) as [f|].
  - exists (log (EvTransform k) w).
    destruct (f k); (split; [reflexivity|]; split; [reflexivity | simpl; lia]).
  - apply runs_ret.
Qed.

Lemma enqueue_trace s name w : trace (enqueue s name w) = trace w.
Proof. reflexivity. Qed.

Lemma append_entry_spec b opts i k w :
  runs_as (append_entry env b opts i k) w
    (res_of (fst (entry_calls env b opts i k)))
    (snd (entry_calls env b opts i k)) 0.
Proof.
  unfold append_entry, entry_calls, entry_stream.
  set (s := {| rs_index := i; rs_Bucket := b; rs_Key := k |}).
  pose proof (runs_call (EvGetObject s) (createReadStream env s) w) as Hopen.
  destruct (createReadStream env s) as [e|].
  { apply runs_bind_throw. exact Hopen. }
  pose proof (fun w1 => s3FileName_of_spec opts k w1) as Hname.
  destruct (name_of opts k) as [e|name]; cbn [fst snd].
  { eapply runs_as_eq; [eapply runs_bind; [exact Hopen|] | |].
    - intros w1 _ _. apply runs_bind_throw. apply Hname.
    - reflexivity.
    - reflexivity. }
  pose proof (fun w2 => runs_call (EvAppend s name) (append_check env s name) w2)
    as Happ.
  destruct (append_check env s name) as [e|] eqn:Hchk.
  - eapply runs_as_eq; [eapply runs_bind; [exact Hopen|] | |].
    + intros w1 _ _. eapply runs_bind; [apply Hname|].
      intros w2 _ _. apply runs_bind_throw. rewrite Hchk. apply Happ.
    + reflexivity.
    + reflexivity.
  - eapply runs_as_eq; [eapply runs_bind; [exact Hopen|] | |].
    + intros w1 _ _. eapply runs_bind; [apply Hname|].
      intros w2 _ _. eapply runs_bind; [rewrite Hchk; apply Happ|].
      intros w3 _ _. apply runs_modify; reflexivity.
    + cbn [app]. rewrite ?app_nil_r. reflexivity.
    + reflexivity.
Qed.

Lemma for_of_spec b opts files : forall i w,
  runs_as (for_of files i (append_entry env b opts)) w
    (res_of (fst (entries_calls env b opts i files)))
    (snd (entries_calls env b opts i files)) 0.
Proof.
  induction files as [|k files IH]; intros i w.
  - apply runs_ret.
  - cbn [for_of entries_calls].
    pose proof (append_entry_spec b opts i k w) as Hk.
    destruct (entry_calls env b opts i k) as [[e|] evs]; cbn [fst snd] in Hk.
    + apply runs_bind_throw. exact Hk.
    + destruct (entries_calls env b opts (S i) files) as [r evs'] eqn:Hrest.
      eapply runs_as_eq; [eapply runs_bind; [exact Hk|] | |].
      * intros w' _ _. specialize (IH (S i) w'). rewrite Hrest in IH. exact IH.
      * reflexivity.
      * reflexivity.
Qed.

Lemma format_of_default req :
  format_of (match outputFormat req with JsUndefined => JsStr "zip" | v => v end)
  = match req_format req with
    | inr format => ret format
    | inl e => throw e
    end.
Proof. unfold req_format. destruct (outputFormat req); reflexivity. Qed.

Lemma stream_entries_spec fuel req w :
  awaits w = 0 ->
  runs_as (stream_entries env sched fuel req) w
    (fst (stream_calls env fuel req)) (snd (stream_calls env fuel req))
    (List.length (snd (resolve_calls env fuel (sourceBucket req)
                         (req_sourcePath req) (req_sourceFiles req) 0))).
Proof.
  intros Hw. unfold stream_entries, stream_calls.
  pose proof (resolve_sourceFiles_spec fuel (sourceBucket req)
                (req_sourcePath req) (req_sourceFiles req) w) as Hres.
  rewrite Hw in Hres.
  destruct (resolve_calls env fuel (sourceBucket req) (req_sourcePath req)
              (req_sourceFiles req) 0) as [[files|e|] lists]; cbn [fst snd] in *.
  - pose proof (fun w1 => for_of_spec (sourceBucket req)
                  (req_archiverOptions req) files 0 w1) as Hfor.
    destruct (entries_calls env (sourceBucket req) (req_archiverOptions req) 0 files)
      as [[e|] evs]; cbn [fst snd] in *.
    + eapply runs_as_eq; [eapply runs_bind; [exact Hres|] | |].
      * intros w1 _ _. apply runs_bind_throw. apply Hfor.
      * reflexivity.
      * lia.
    + eapply runs_as_eq; [eapply runs_bind; [exact Hres|] | |].
      * intros w1 _ _. eapply runs_bind; [apply Hfor|].
        intros w2 _ _. eapply runs_bind; [apply (runs_call EvFinalize None)|].
        intros w3 _ _. apply runs_modify; reflexivity.
      * cbn [app]. rewrite ?app_nil_r. reflexivity.
      * lia.
  - apply runs_bind_throw. exact Hres.
  - apply runs_bind_running. exact Hres.
Qed.

Lemma try_body_unfold fuel req :
  try_body env sched fuel req =
  (let* format :=
     format_of (match outputFormat req with JsUndefined => JsStr "zip" | v => v end) in
   call (EvArchiver format) (archiver_create env format) ;;
   call EvPassThrough None ;;
   call (EvUpload (req_params req format)) (upload_check env (req_params req format)) ;;
   modify (start_upload (req_params req format)) ;;
   call EvPipe None ;;
   modify set_piped ;;
   stream_entries env sched fuel req).
Proof. reflexivity. Qed.

Lemma try_body_spec fuel req :
  exists k,
    runs_as (try_body env sched fuel req) initial
      (fst (executor_calls env fuel req)) (snd (executor_calls env fuel req)) k.
Proof.
  rewrite try_body_unfold, format_of_default. unfold executor_calls.
  destruct (req_format req) as [e0|format].
  { exists 0. apply runs_bind_throw. apply runs_throw. }
  pose proof (fun w => runs_call (EvArchiver format) (archiver_create env format) w)
    as Harch.
  destruct (archiver_create env format) as [e|] eqn:Ea.
  { exists 0. eapply runs_as_eq; [eapply runs_bind; [apply runs_ret|] | |].
    - intros w1 _ _. apply runs_bind_throw. rewrite Ea. apply Harch.
    - reflexivity.
    - reflexivity. }
  pose proof (fun w => runs_call (EvUpload (req_params req format))
                         (upload_check env (req_params req format)) w) as Hup.
  destruct (upload_check env (req_params req format)) as [e|] eqn:Eu.
  { exists 0. eapply runs_as_eq; [eapply runs_bind; [apply runs_ret|] | |].
    - intros w1 _ _. eapply runs_bind; [rewrite Ea; apply Harch|].
      intros w2 _ _. eapply runs_bind; [apply (runs_call EvPassThrough None)|].
      intros w3 _ _. apply runs_bind_throw. rewrite Eu. apply Hup.
    - reflexivity.
    - reflexivity. }
  destruct (stream_calls env fuel req) as [r evs] eqn:Hs.
  eexists. eapply runs_as_eq; [eapply runs_bind; [apply runs_ret|] | |].
  - intros w1 _ Ha1. eapply runs_bind; [rewrite Ea; apply Harch|].
    intros w2 _ Ha2. eapply runs_bind; [apply (runs_call EvPassThrough None)|].
    intros w3 _ Ha3. eapply runs_bind; [rewrite Eu; apply Hup|].
    intros w4 _ Ha4. eapply runs_bind; [apply runs_modify; reflexivity|].
    intros w5 _ Ha5. eapply runs_bind; [apply (runs_call EvPipe None)|].
    intros w6 _ Ha6. eapply runs_bind; [apply runs_modify; reflexivity|].
    intros w7 _ Ha7.
    pose proof (stream_entries_spec fuel req w7) as Hrest.
    rewrite Hs in Hrest. apply Hrest.
    simpl in *. lia.
  - reflexivity.
  - reflexivity.
Qed.

(** The calls of an invocation do not depend on the schedule. *)
Lemma executor_trace fuel req :
  trace (executor env sched fuel req) = snd (executor_calls env fuel req).
Proof.
  destruct (try_body_spec fuel req) as (k & w' & Hrun & Htr & _).
  unfold executor. rewrite Hrun.
  destruct (fst (executor_calls env fuel req));
    rewrite ?settle_trace; unfold reject; rewrite ?settle_trace; exact Htr.
Qed.

Lemma archive_trace fuel req :
  trace (archive env sched fuel req) = snd (executor_calls env fuel req).
Proof.
  unfold archive. rewrite run_actions_trace. apply executor_trace.
Qed.

End CallsSpec.

(** ** Carrying an invariant through the program *)

Section SyncInvariants.

Context (env : Env).
Context (I : World -> Prop) (HI : sync_stable I).

Lemma preserves_ret {A} (a : A) : preserves I (ret a).
Proof. intros w r w' Hw [= _ <-]. exact Hw. Qed.

Lemma preserves_bind {A B} (m : M A) (f : A -> M B) :
  preserves I m -> (forall a, preserves I (f a)) -> preserves I (bind m f).
Proof.
  intros Hm Hf w r w' Hw. unfold bind.
  destruct (m w) as [[a|e|] w1] eqn:Em; intros Hr.
  - eapply Hf; [eapply Hm; eauto | exact Hr].
  - injection Hr as _ <-. eapply Hm; eauto.
  - injection Hr as _ <-. eapply Hm; eauto.
Qed.

Lemma preserves_call ev ans : preserves I (call ev ans).
Proof.
  intros w r w' Hw. unfold call.
  destruct ans; intros [= _ <-]; apply (sync_log _ HI); exact Hw.
Qed.

Lemma preserves_modify f :
  (forall w, I w -> I (f w)) -> preserves I (modify f).
Proof. intros Hf w r w' Hw [= _ <-]. apply Hf. exact Hw. Qed.

Lemma preserves_s3FileName_of opts k : preserves I (s3FileName_of opts k).
Proof.
  unfold s3FileName_of. destruct (s3FileNameTransform opts) as [f|].
  - intros w r w' Hw. destruct (f k); intros [= _ <-];
      apply (sync_log _ HI); exact Hw.
  - apply preserves_ret.
Qed.

Lemma preserves_append_entry b opts i k :
  preserves I (append_entry env b opts i k).
Proof.
  unfold append_entry.
  apply preserves_bind; [apply preserves_call|]. intros _.
  apply preserves_bind; [apply preserves_s3FileName_of|]. intros name.
  apply preserves_bind; [apply preserves_call|]. intros _.
  apply preserves_modify. intros w. apply (sync_enqueue _ HI).
Qed.

Lemma preserves_for_of b opts files : forall i,
  preserves I (for_of files i (append_entry env b opts)).
Proof.
  induction files as [|k files IH]; intros i; cbn [for_of].
  - apply preserves_ret.
  - apply preserves_bind; [apply preserves_append_entry|]. intros _. apply IH.
Qed.

End SyncInvariants.

Section Invariants.

Context (env : Env) (sched : Schedule).
Context (I : World -> Prop) (HI : stable env I).

Lemma run_actions_stable l : forall w, I w -> I (run_actions env l w).
Proof.
  induction l as [|a l IH]; intros w Hw; [exact Hw|].
  rewrite run_actions_cons. apply IH. apply (stable_act _ _ HI). exact Hw.
Qed.

Lemma preserves_await props : preserves I (await_listObjectsV2 env sched props).
Proof.
  intros w r w' Hw. unfold await_listObjectsV2.
  assert (I (run_actions env (during_await sched (awaits w))
               (count_await (log (EvList props) w)))) as Hw'.
  { apply run_actions_stable. apply (stable_await _ _ HI).
    apply (sync_log _ (stable_sync _ _ HI)). exact Hw. }
  destruct (listObjectsV2 env (awaits w) props); intros [= _ <-]; exact Hw'.
Qed.

Lemma preserves_list_loop fuel b p : forall tok acc,
  preserves I (list_loop env sched fuel b p tok acc).
Proof.
  induction fuel as [|fuel IH]; intros tok acc.
  - intros w r w' Hw [= _ <-]. exact Hw.
  - cbn [list_loop]. apply preserves_bind; [apply preserves_await|].
    intros page. destruct (negb (IsTruncated page)); [apply preserves_ret|apply IH].
Qed.

Lemma preserves_resolve fuel b p files :
  preserves I (resolve_sourceFiles env sched fuel b p files).
Proof.
  unfold resolve_sourceFiles. destruct (Nat.ltb 0 (List.length files)).
  - apply preserves_ret.
  - apply preserves_list_loop.
Qed.

Lemma preserves_stream_entries fuel req :
  (forall w, I w -> I (set_finalized w)) ->
  preserves I (stream_entries env sched fuel req).
Proof.
  intros Hfin. unfold stream_entries.
  apply preserves_bind; [apply preserves_resolve|]. intros files.
  apply preserves_bind;
    [apply preserves_for_of; apply (stable_sync _ _ HI)|]. intros _.
  apply preserves_bind;
    [apply preserves_call; apply (stable_sync _ _ HI)|]. intros _.
  apply preserves_modify. exact Hfin.
Qed.

(** Up to [finalize], which is reached only on normal completion. *)
Lemma stream_entries_unfinished fuel req w r w' :
  I w -> stream_entries env sched fuel req w = (r, w') -> r <> Ret tt -> I w'.
Proof.
  intros Hw. unfold stream_entries, bind.
  destruct (resolve_sourceFiles env sched fuel (sourceBucket req)
              (req_sourcePath req) (req_sourceFiles req) w)
    as [[files|e|] w1] eqn:E1;
    pose proof (preserves_resolve _ _ _ _ _ _ _ Hw E1) as Hw1.
  2,3: intros [= <- <-] _; exact Hw1.
  destruct (for_of files 0 (append_entry env (sourceBucket req)
              (req_archiverOptions req)) w1) as [[[]|e|] w2] eqn:E2;
    pose proof (preserves_for_of env I (stable_sync _ _ HI) _ _ _ _ _ _ _ Hw1 E2)
      as Hw2.
  2,3: intros [= <- <-] _; exact Hw2.
  unfold call, modify. intros [= <- <-] Hr. congruence.
Qed.

End Invariants.

(** ** The three ways an invocation goes *)

Section Cases.

Context (env : Env) (sched : Schedule).

Lemma upload_params_lookup_Body b k (opts : gmap string ParamVal) :
  upload_params b k opts !! "Body"
  = Some (default (PStream OutputStream) (opts !! "Body")).
Proof.
  unfold upload_params. rewrite lookup_union.
  rewrite lookup_insert_ne by discriminate.
  rewrite lookup_insert_ne by discriminate.
  rewrite lookup_insert_eq.
  destruct (opts !! "Body"); reflexivity.
Qed.

Lemma upload_params_lookup_Key b k (opts : gmap string ParamVal) :
  upload_params b k opts !! "Key"
  = Some (default (PVal (JsStr k)) (opts !! "Key")).
Proof.
  unfold upload_params. rewrite lookup_union.
  rewrite lookup_insert_ne by discriminate.
  rewrite lookup_insert_eq.
  destruct (opts !! "Key"); reflexivity.
Qed.

Lemma upload_params_lookup_Bucket b k (opts : gmap string ParamVal) :
  upload_params b k opts !! "Bucket"
  = Some (default (PVal (JsStr b)) (opts !! "Bucket")).
Proof.
  unfold upload_params. rewrite lookup_union.
  rewrite lookup_insert_eq.
  destruct (opts !! "Bucket"); reflexivity.
Qed.

Lemma upload_params_lookup_other b k (opts : gmap string ParamVal) (x : string) :
  x <> "Bucket" -> x <> "Key" -> x <> "Body" ->
  upload_params b k opts !! x = opts !! x.
Proof.
  intros H1 H2 H3. unfold upload_params. rewrite lookup_union.
  rewrite !lookup_insert_ne by congruence. rewrite lookup_empty.
  destruct (opts !! x); reflexivity.
Qed.

Lemma act_idle a w :
  sink w = SinkIdle -> enc_queue w = [] -> enc_finalized w = false ->
  act env a w = w.
Proof.
  intros Hs Hq Hf. destruct a; unfold act; rewrite ?Hs, ?Hq, ?Hf;
    destruct (enc_status w); reflexivity.
Qed.

Lemma run_actions_idle l w :
  sink w = SinkIdle -> enc_queue w = [] -> enc_finalized w = false ->
  run_actions env l w = w.
Proof.
  intros Hs Hq Hf. induction l as [|a l IH]; [reflexivity|].
  rewrite run_actions_cons, act_idle; auto.
Qed.

Lemma blank_log ev w : blank w -> blank (log ev w).
Proof. unfold blank. simpl. tauto. Qed.

Lemma blank_initial : blank initial.
Proof. unfold blank. simpl. tauto. Qed.

Lemma executor_cases fuel req :
  (exists e w0,
      try_body env sched fuel req initial = (Throw e, w0) /\ blank w0
      /\ executor env sched fuel req = reject e w0
      /\ archive env sched fuel req = reject e w0)
  \/
  (exists format r w1,
      req_format req = inr format
      /\ archiver_create env format = None
      /\ upload_check env (req_params req format) = None
      /\ stream_entries env sched fuel req (init_world req format) = (r, w1)
      /\ try_body env sched fuel req initial = (r, w1)).
Proof.
  assert (forall e w0, try_body env sched fuel req initial = (Throw e, w0) ->
            blank w0 ->
            exists e w0,
              try_body env sched fuel req initial = (Throw e, w0) /\ blank w0
              /\ executor env sched fuel req = reject e w0
              /\ archive env sched fuel req = reject e w0) as Hearly.
  { intros e w0 Hb Hw0. exists e, w0. split; [exact Hb|]. split; [exact Hw0|].
    assert (executor env sched fuel req = reject e w0) as He.
    { unfold executor. rewrite Hb. reflexivity. }
    split; [exact He|]. unfold archive. rewrite He.
    destruct Hw0 as (Hp & Hs & Hq & Hf & _).
    apply run_actions_idle; unfold reject, settle; rewrite Hp; simpl; auto. }
  rewrite try_body_unfold, format_of_default in *.
  destruct (req_format req) as [e0|format] eqn:Ef.
  { left. eapply Hearly; [reflexivity | apply blank_initial]. }
  destruct (archiver_create env format) as [e|] eqn:Ea.
  { left. eapply Hearly.
    - unfold bind, ret, call. rewrite Ea. reflexivity.
    - apply blank_log, blank_initial. }
  destruct (upload_check env (req_params req format)) as [e|] eqn:Eu.
  { left. eapply Hearly.
    - unfold bind, ret, call. rewrite Ea, Eu. reflexivity.
    - repeat apply blank_log. apply blank_initial. }
  right. exists format.
  destruct (stream_entries env sched fuel req (init_world req format))
    as [r w1] eqn:Es.
  exists r, w1. repeat split; auto.
  unfold bind at 1, ret, call, modify. cbn beta iota.
  unfold bind. rewrite Ea, Eu. exact Es.
Qed.

(** An invariant that holds before anything is started, and again when
    the upload has been started, holds when the invocation is over. *)
Lemma archive_invariant (I : World -> Prop) fuel req :
  stable env I ->
  (forall e w, I w -> I (reject e w)) ->
  (forall w, I w -> I (set_finalized w)) ->
  (forall w0, blank w0 -> I w0) ->
  (forall format, req_format req = inr format -> I (init_world req format)) ->
  I (archive env sched fuel req).
Proof.
  intros HI Hrej Hfin Hblank Hinit.
  destruct (executor_cases fuel req)
    as [(e & w0 & _ & Hw0 & _ & ->) | (format & r & w1 & Hf & _ & _ & Hs & Hb)].
  - apply Hrej. apply Hblank. exact Hw0.
  - unfold archive, executor. rewrite Hb.
    apply (run_actions_stable env I HI).
    assert (I w1) as Hw1.
    { eapply (preserves_stream_entries env sched I HI _ _ Hfin); [|exact Hs].
      apply Hinit. exact Hf. }
    destruct r; [exact Hw1 | apply Hrej; exact Hw1 | exact Hw1].
Qed.

End Cases.

(** ** Byte conservation between the encoder and the upload *)

Section Conservation.

Context (env : Env).

Lemma conserving_act a w : conserving w -> conserving (act env a w).
Proof.
  intros H. pose proof H as (Hsum & Hbody & Hres).
  destruct a; unfold act.
  - (* EncoderEntry *)
    destruct (enc_status w) eqn:Est; try exact H.
    destruct (enc_queue w) as [|[s name] q]; try exact H.
    destruct (read_stream env s) as [e|size]; unfold conserving; simpl;
      (split; [lia|]); (split; [exact Hbody|]);
      intros r Hr; destruct (Hres r Hr) as (_ & Hend & _); congruence.
  - (* EncoderEnd *)
    destruct (enc_status w) eqn:Est; try exact H.
    destruct (enc_queue w); try exact H.
    destruct (enc_finalized w); try exact H.
    unfold conserving; simpl. split; [lia|]. split; [exact Hbody|].
    intros r Hr. destruct (Hres r Hr) as (_ & Hend & _). congruence.
  - (* SinkRead *)
    destruct (sink w) as [|params|] eqn:Es; try exact H.
    rewrite (Hbody params eq_refl).
    destruct (piped w && (n <=? in_flight w)%N) eqn:Eg;
      try exact H.
    apply andb_prop in Eg as [_ Hle]. apply N.leb_le in Hle.
    unfold conserving; simpl. split; [lia|]. split; [exact Hbody|].
    intros r Hr. destruct (Hres r Hr) as (Hcb & _). congruence.
  - (* SinkDone *)
    destruct (sink w) as [|params|] eqn:Es; try exact H.
    unfold body_complete. rewrite (Hbody params eq_refl).
    destruct (enc_status w) eqn:Est; try exact H.
    destruct (piped w && (in_flight w =? 0)%N) eqn:Eg;
      try exact H.
    apply andb_prop in Eg as [_ Hz]. apply N.eqb_eq in Hz.
    unfold upload_callback, resolve, settle; simpl.
    destruct (promise w) as [|r0|e0] eqn:Ep.
    + unfold conserving; simpl. split; [lia|]. split; [discriminate|].
      intros r [= <-]. simpl. auto.
    + destruct (Hres r0 eq_refl) as (Hcb & _). congruence.
    + unfold conserving; simpl. rewrite Ep. split; [lia|]. split; [discriminate|].
      discriminate.
  - (* SinkFail *)
    destruct (sink w) as [|params|] eqn:Es; try exact H.
    unfold upload_callback, reject, settle; simpl.
    destruct (promise w) as [|r0|e0] eqn:Ep.
    + unfold conserving; simpl. split; [lia|]. split; [discriminate|]. discriminate.
    + destruct (Hres r0 eq_refl) as (Hcb & _). congruence.
    + unfold conserving; simpl. rewrite Ep. split; [lia|]. split; [discriminate|].
      discriminate.
Qed.

Lemma conserving_stable : stable env conserving.
Proof.
  split; [split|..].
  - intros ev w H. exact H.
  - intros s name w (Hsum & Hbody & Hres). unfold conserving; simpl.
    rewrite !N.add_0_r. split; [exact Hsum|]. split; [exact Hbody|]. exact Hres.
  - intros w H. exact H.
  - intros a w. apply conserving_act.
Qed.

Lemma conserving_reject e w : conserving w -> conserving (reject e w).
Proof.
  intros H. pose proof H as (Hsum & Hbody & Hres). unfold reject, settle.
  destruct (promise w) eqn:Ep; try exact H.
  unfold conserving; simpl. split; [exact Hsum|]. split; [exact Hbody|].
  discriminate.
Qed.

Lemma conserving_finalized w : conserving w -> conserving (set_finalized w).
Proof. intros H. exact H. Qed.

Lemma conserving_blank w : blank w -> conserving w.
Proof.
  intros (Hp & Hs & _ & _ & _ & Hptr & Hfl & Hrc). unfold conserving.
  rewrite Hp, Hs, Hptr, Hfl, Hrc. repeat split; discriminate.
Qed.

Lemma conserving_init req format :
  req_uploadOptions req !! "Body" = None ->
  conserving (init_world req format).
Proof.
  intros Hb. unfold conserving, init_world; simpl.
  split; [reflexivity|]. split; [|discriminate].
  intros params [= <-]. unfold req_params.
  rewrite upload_params_lookup_Body, Hb. reflexivity.
Qed.

Lemma archive_conserving sched fuel req :
  req_uploadOptions req !! "Body" = None ->
  conserving (archive env sched fuel req).
Proof.
  intros Hb. apply archive_invariant.
  - apply conserving_stable.
  - apply conserving_reject.
  - apply conserving_finalized.
  - apply conserving_blank.
  - intros format _. apply conserving_init. exact Hb.
Qed.

End Conservation.

(** ** C1: the reported size *)

(** C1, as amended: in every successful run whose [uploadOptions] do
    not replace [Body], the [fileSize] of the result equals the
    encoder's pointer, which equals the number of bytes the upload has
    read; the encoder has ended, and no later step of the event loop
    changes either count. *)
Theorem byte_size_invariant env sched fuel req r :
  req_uploadOptions req !! "Body" = None ->
  promise (archive env sched fuel req) = Resolved r ->
  fileSize r = enc_pointer (archive env sched fuel req)
  /\ enc_pointer (archive env sched fuel req)
     = sink_received (archive env sched fuel req)
  /\ enc_status (archive env sched fuel req) = EncEnded
  /\ forall later,
       enc_pointer (run_actions env later (archive env sched fuel req))
       = enc_pointer (archive env sched fuel req)
       /\ sink_received (run_actions env later (archive env sched fuel req))
          = sink_received (archive env sched fuel req).
Proof.
  intros Hbody Hres.
  pose proof (archive_conserving env sched fuel req Hbody) as Hc.
  pose proof Hc as (Hsum & _ & Hr).
  destruct (Hr r Hres) as (_ & Hend & Hfl & Hsize).
  assert (enc_pointer (archive env sched fuel req)
          = sink_received (archive env sched fuel req)) as Heq.
  { rewrite Hsum, Hfl. apply N.add_0_l. }
  repeat split; auto.
  - pose proof (run_actions_stable env conserving (conserving_stable env) later _ Hc)
      as (_ & _ & Hr').
    assert (promise (run_actions env later (archive env sched fuel req)) = Resolved r)
      as Hres'.
    { rewrite run_actions_settled; [exact Hres|]. rewrite Hres. discriminate. }
    destruct (Hr' r Hres') as (_ & _ & _ & Hsize'). congruence.
  - pose proof (run_actions_stable env conserving (conserving_stable env) later _ Hc)
      as (Hsum' & _ & Hr').
    assert (promise (run_actions env later (archive env sched fuel req)) = Resolved r)
      as Hres'.
    { rewrite run_actions_settled; [exact Hres|]. rewrite Hres. discriminate. }
    destruct (Hr' r Hres') as (_ & _ & Hfl' & Hsize').
    rewrite Hfl', N.add_0_l in Hsum'. congruence.
Qed.

(** A successful run of two entries: 242 bytes emitted, read and reported. *)
Lemma byte_size_invariant_witness :
  promise (archive Demo.env (Demo.drain 2 242) 0
             (Demo.request None ["a.txt"; "b.txt"] (JsStr "zip") ∅))
  = Resolved {| s3Bucket := "bucket"; fileKey := "key"; fileSize := 242 |}
  /\ enc_pointer (archive Demo.env (Demo.drain 2 242) 0
                    (Demo.request None ["a.txt"; "b.txt"] (JsStr "zip") ∅)) = 242%N
  /\ sink_received (archive Demo.env (Demo.drain 2 242) 0
                      (Demo.request None ["a.txt"; "b.txt"] (JsStr "zip") ∅)) = 242%N.
Proof.
  assert (promise (archive Demo.env (Demo.drain 2 242) 0
             (Demo.request None ["a.txt"; "b.txt"] (JsStr "zip") ∅))
          = Resolved {| s3Bucket := "bucket"; fileKey := "key"; fileSize := 242 |})
    as Hres by (vm_compute; reflexivity).
  assert (req_uploadOptions
            (Demo.request None ["a.txt"; "b.txt"] (JsStr "zip") ∅) !! "Body" = None)
    as Hbody by (vm_compute; reflexivity).
  destruct (byte_size_invariant Demo.env (Demo.drain 2 242) 0
              (Demo.request None ["a.txt"; "b.txt"] (JsStr "zip") ∅) _
              Hbody Hres) as (Hsize & Heq & _).
  simpl fileSize in Hsize.
  split; [exact Hres|]. split; [symmetry; exact Hsize|].
  rewrite <- Heq. symmetry. exact Hsize.
Defined.

(** C1 as stated fails when the caller's [uploadOptions] carry a [Body]
    of their own: the upload reads that one byte and succeeds, while the
    result reports the 132 bytes the encoder wrote into a stream nobody
    uploads. *)
Lemma byte_size_body_override :
  exists r,
    promise (archive Demo.env (Demo.drain 1 1) 0
               (Demo.request None ["a.txt"] (JsStr "zip")
                  {["Body" := PVal (JsStr "x")]})) = Resolved r
    /\ fileSize r = 132%N
    /\ enc_pointer (archive Demo.env (Demo.drain 1 1) 0
               (Demo.request None ["a.txt"] (JsStr "zip")
                  {["Body" := PVal (JsStr "x")]})) = 132%N
    /\ sink_received (archive Demo.env (Demo.drain 1 1) 0
               (Demo.request None ["a.txt"] (JsStr "zip")
                  {["Body" := PVal (JsStr "x")]})) = 1%N
    /\ fileSize r <> sink_received (archive Demo.env (Demo.drain 1 1) 0
               (Demo.request None ["a.txt"] (JsStr "zip")
                  {["Body" := PVal (JsStr "x")]})).
Proof.
  eexists. split; [vm_compute; reflexivity|].
  repeat split; try (vm_compute; reflexivity).
  vm_compute. discriminate.
Qed.

(** ** C10 and C5: the output format *)




Section Format.

Context (env : Env) (sched : Schedule).




End Format.

(** The validation on a few values: the case of the caller is kept. *)
Example req_format_examples :
  map (fun v => req_format (Demo.request None [] v ∅))
      [JsStr "zip"; JsStr "ZIP"; JsStr "Tar"; JsStr "rar"; JsStr EmptyString;
       JsUndefined]
  = [inr "zip"; inr "ZIP"; inr "Tar"; inr "zip"; inr "zip"; inr "zip"].
Proof. reflexivity. Qed.



(** ** What the calls of a run can be *)

Section TraceShape.

Context (env : Env).

Lemma list_calls_props fuel b p : forall tok acc i props,
  In props (snd (list_calls env fuel b p tok acc i)) ->
  lp_Bucket props = b
  /\ lp_Prefix props = (if Nat.eqb (String.length p) 0 then None else Some p).
Proof.
  induction fuel as [|fuel IH]; intros tok acc i props; cbn [list_calls].
  - intros [].
  - destruct (listObjectsV2 env i (s3ObjectsProps b p tok)) as [e|page].
    + intros [<-|[]]. split; reflexivity.
    + destruct (negb (IsTruncated page)).
      * intros [<-|[]]. split; reflexivity.
      * destruct (list_calls env fuel b p (CTNext (NextContinuationToken page))
                    (acc ++ page_keys p page) (S i)) as [r l] eqn:El.
        intros [<-|Hin]; [split; reflexivity|].
        eapply IH. rewrite El. exact Hin.
Qed.

Lemma entry_calls_In b opts i k ev :
  In ev (snd (entry_calls env b opts i k)) ->
  ev = EvGetObject (entry_stream b i k)
  \/ ev = EvTransform k
  \/ exists name, ev = EvAppend (entry_stream b i k) name
                  /\ name_of opts k = inr name.
Proof.
  unfold entry_calls.
  destruct (createReadStream env (entry_stream b i k)).
  { intros [<-|[]]. auto. }
  assert (forall x,
            In x (match s3FileNameTransform opts with
                  | Some _ => [EvTransform k]
                  | None => []
                  end) -> x = EvTransform k) as Hnamed.
  { intros x. destruct (s3FileNameTransform opts); [intros [<-|[]]; auto | intros []]. }
  destruct (name_of opts k) as [e|name] eqn:En; cbn [snd].
  - intros [<-|Hin]; auto.
  - intros [<-|Hin]; auto.
    apply in_app_or in Hin as [Hin|[<-|[]]]; [auto|].
    right. right. exists name. auto.
Qed.

Lemma entries_calls_In b opts files : forall i ev,
  In ev (snd (entries_calls env b opts i files)) ->
  entry_event b opts files i ev.
Proof.
  induction files as [|k files IH]; intros i ev; cbn [entries_calls].
  - intros [].
  - pose proof (entry_calls_In b opts i k ev) as Hk.
    destruct (entry_calls env b opts i k) as [[e|] evs]; cbn [snd] in *.
    + intros Hin. exists 0, k. rewrite Nat.add_0_r. split; [reflexivity|auto].
    + destruct (entries_calls env b opts (S i) files) as [r evs'] eqn:Er.
      cbn [snd]. intros Hin. apply in_app_or in Hin as [Hin|Hin].
      * exists 0, k. rewrite Nat.add_0_r. split; [reflexivity|auto].
      * specialize (IH (S i) ev). rewrite Er in IH.
        destruct (IH Hin) as (j & k' & Hj & Hev).
        exists (S j), k'. replace (i + S j) with (S i + j) by lia.
        split; [exact Hj | exact Hev].
Qed.

(** The calls of the whole [try] body, by kind. *)
Lemma stream_calls_In fuel req ev :
  In ev (snd (stream_calls env fuel req)) ->
  (exists props, ev = EvList props
                 /\ In props (snd (resolve_calls env fuel (sourceBucket req)
                                     (req_sourcePath req) (req_sourceFiles req) 0)))
  \/ (exists files,
        fst (resolve_calls env fuel (sourceBucket req) (req_sourcePath req)
               (req_sourceFiles req) 0) = Ret files
        /\ entry_event (sourceBucket req) (req_archiverOptions req) files 0 ev)
  \/ ev = EvFinalize.
Proof.
  unfold stream_calls.
  destruct (resolve_calls env fuel (sourceBucket req) (req_sourcePath req)
              (req_sourceFiles req) 0) as [[files|e|] lists]; cbn [fst snd].
  - pose proof (entries_calls_In (sourceBucket req) (req_archiverOptions req)
                  files 0 ev) as Hent.
    destruct (entries_calls env (sourceBucket req) (req_archiverOptions req) 0 files)
      as [[e|] evs]; cbn [snd] in *; intros Hin;
      apply in_app_or in Hin as [Hin|Hin].
    + left. apply in_map_iff in Hin as (props & <- & Hp). eauto.
    + right. left. eauto.
    + left. apply in_map_iff in Hin as (props & <- & Hp). eauto.
    + apply in_app_or in Hin as [Hin|[<-|[]]]; [right; left; eauto | auto].
  - intros Hin. left. apply in_map_iff in Hin as (props & <- & Hp). eauto.
  - intros Hin. left. apply in_map_iff in Hin as (props & <- & Hp). eauto.
Qed.

(** The calls always come in the order of the source: the encoder, the
    [PassThrough], the upload, the pipe, and only then the rest. *)
Lemma executor_calls_shape fuel req :
  snd (executor_calls env fuel req) = []
  \/ exists format,
       req_format req = inr format
       /\ (snd (executor_calls env fuel req) = [EvArchiver format]
           \/ snd (executor_calls env fuel req)
              = [EvArchiver format; EvPassThrough; EvUpload (req_params req format)]
           \/ snd (executor_calls env fuel req)
              = ([EvArchiver format; EvPassThrough;
                  EvUpload (req_params req format); EvPipe]
                 ++ snd (stream_calls env fuel req))%list).
Proof.
  unfold executor_calls.
  destruct (req_format req) as [e|format]; [left; reflexivity|].
  right. exists format. split; [reflexivity|].
  destruct (archiver_create env format); [auto|].
  destruct (upload_check env (req_params req format)); [auto|].
  destruct (stream_calls env fuel req). auto.
Qed.

End TraceShape.

(** ** C8 and C9: the upload *)

Section Upload.

Context (env : Env) (sched : Schedule).

(** Every call of a run is one of the four calls that wire the upload,
    or a call of the enumeration and of the loop. *)
Lemma archive_trace_In fuel req ev :
  In ev (trace (archive env sched fuel req)) ->
  (exists format,
     req_format req = inr format
     /\ (ev = EvArchiver format \/ ev = EvPassThrough
         \/ ev = EvUpload (req_params req format) \/ ev = EvPipe))
  \/ In ev (snd (stream_calls env fuel req)).
Proof.
  rewrite archive_trace. intros Hin.
  destruct (executor_calls_shape env fuel req)
    as [Hnil | (format & Hf & [H1 | [H3 | H4]])].
  - rewrite Hnil in Hin. destruct Hin.
  - rewrite H1 in Hin. left. exists format. simpl in Hin. intuition.
  - rewrite H3 in Hin. left. exists format. simpl in Hin. intuition.
  - rewrite H4 in Hin. apply in_app_or in Hin as [Hin|Hin]; [|auto].
    left. exists format. simpl in Hin. intuition.
Qed.

Lemma stream_calls_no_upload fuel req params :
  ~ In (EvUpload params) (snd (stream_calls env fuel req)).
Proof.
  intros Hin.
  destruct (stream_calls_In env fuel req _ Hin)
    as [(props & H & _) | [(files & _ & (j & k & _ & Hev)) | H]];
    try discriminate.
  destruct Hev as [H | [H | (name & H & _)]]; discriminate.
Qed.

(** C8, as amended: before any entry is appended, [s3.upload] has been
    called with the [params] of lines 52-57 and then the encoder has been
    piped into the [PassThrough]; the [Body] of those [params] is that
    [PassThrough] unless [uploadOptions] replaces it. *)
Theorem upload_wired_before_append fuel req before s name after :
  trace (archive env sched fuel req) = (before ++ EvAppend s name :: after)%list ->
  exists format rest,
    req_format req = inr format
    /\ before = ([EvArchiver format; EvPassThrough;
                  EvUpload (req_params req format); EvPipe] ++ rest)%list
    /\ req_params req format !! "Body"
       = Some (default (PStream OutputStream) (req_uploadOptions req !! "Body"))
    /\ (req_uploadOptions req !! "Body" = None ->
        req_params req format !! "Body" = Some (PStream OutputStream)).
Proof.
  rewrite archive_trace. intros Ht.
  assert (In (EvAppend s name) (snd (executor_calls env fuel req))) as Hin.
  { rewrite Ht. apply in_or_app. right. left. reflexivity. }
  destruct (executor_calls_shape env fuel req)
    as [Hnil | (format & Hf & [H1 | [H3 | H4]])].
  - rewrite Hnil in Hin. destruct Hin.
  - rewrite H1 in Hin. simpl in Hin. intuition discriminate.
  - rewrite H3 in Hin. simpl in Hin. intuition discriminate.
  - rewrite H4 in Ht.
    apply app_eq_app in Ht as (l & [[Hb Ha] | [Hb Ha]]).
    + (* the init calls end inside [before]: impossible, they hold no append *)
      exists format.
      destruct l as [|x l].
      * rewrite app_nil_r in Hb. exists []. rewrite app_nil_r.
        split; [exact Hf|]. split; [congruence|].
        unfold req_params. rewrite upload_params_lookup_Body.
        split; [reflexivity|]. intros ->. reflexivity.
      * exfalso.
        assert (In (EvAppend s name)
                  [EvArchiver format; EvPassThrough;
                   EvUpload (req_params req format); EvPipe]) as Hbad.
        { rewrite Hb. apply in_or_app. right.
          injection Ha as <- _. left. reflexivity. }
        simpl in Hbad. intuition discriminate.
    + exists format, l. split; [exact Hf|]. split; [exact Hb|].
      unfold req_params. rewrite upload_params_lookup_Body.
      split; [reflexivity|]. intros ->. reflexivity.
Qed.

(** C9: every listing and every read of the run is made on
    [sourceBucket], and the [Bucket] of the upload is [sourceBucket] too,
    unless [uploadOptions] has a [Bucket] of its own, which then wins. *)
Theorem upload_into_source_bucket fuel req :
  (forall params, In (EvUpload params) (trace (archive env sched fuel req)) ->
     params !! "Bucket"
     = Some (default (PVal (JsStr (sourceBucket req)))
               (req_uploadOptions req !! "Bucket")))
  /\ (forall props, In (EvList props) (trace (archive env sched fuel req)) ->
        lp_Bucket props = sourceBucket req)
  /\ (forall s, In (EvGetObject s) (trace (archive env sched fuel req)) ->
        rs_Bucket s = sourceBucket req).
Proof.
  rewrite archive_trace.
  assert (forall ev, In ev (snd (executor_calls env fuel req)) ->
            (exists format, ev = EvArchiver format \/ ev = EvPassThrough
                            \/ ev = EvUpload (req_params req format) \/ ev = EvPipe)
            \/ In ev (snd (stream_calls env fuel req))) as Hsplit.
  { intros ev Hin.
    destruct (executor_calls_shape env fuel req)
      as [Hnil | (format & Hf & [H1 | [H3 | H4]])].
    - rewrite Hnil in Hin. destruct Hin.
    - rewrite H1 in Hin. left. exists format. simpl in Hin. intuition.
    - rewrite H3 in Hin. left. exists format. simpl in Hin. intuition.
    - rewrite H4 in Hin. apply in_app_or in Hin as [Hin|Hin]; [|auto].
      left. exists format. simpl in Hin. intuition. }
  assert (forall ev, In ev (snd (stream_calls env fuel req)) ->
            (exists props, ev = EvList props /\ lp_Bucket props = sourceBucket req)
            \/ (exists s, ev = EvGetObject s /\ rs_Bucket s = sourceBucket req)
            \/ (exists k, ev = EvTransform k)
            \/ (exists s name, ev = EvAppend s name)
            \/ ev = EvFinalize) as Hstream.
  { intros ev Hin.
    destruct (stream_calls_In env fuel req ev Hin)
      as [(props & -> & Hp) | [(files & _ & (j & k & _ & Hev)) | ->]].
    - left. exists props. split; [reflexivity|].
      unfold resolve_calls in Hp.
      destruct (Nat.ltb 0 (List.length (req_sourceFiles req))); [destruct Hp|].
      eapply list_calls_props. exact Hp.
    - destruct Hev as [-> | [-> | (name & -> & _)]]; eauto 10.
    - auto 10. }
  repeat split.
  - intros params Hin.
    destruct (Hsplit _ Hin) as [(format & [H|[H|[H|H]]]) | Hs]; try discriminate.
    + injection H as ->. unfold req_params. apply upload_params_lookup_Bucket.
    + destruct (Hstream _ Hs)
        as [(? & H & _) | [(? & H & _) | [(? & H) | [(? & ? & H) | H]]]];
        discriminate.
  - intros props Hin.
    destruct (Hsplit _ Hin) as [(format & [H|[H|[H|H]]]) | Hs]; try discriminate.
    destruct (Hstream _ Hs)
      as [(? & H & Hb) | [(? & H & _) | [(? & H) | [(? & ? & H) | H]]]];
      try discriminate.
    injection H as <-. exact Hb.
  - intros s Hin.
    destruct (Hsplit _ Hin) as [(format & [H|[H|[H|H]]]) | Hs]; try discriminate.
    destruct (Hstream _ Hs)
      as [(? & H & _) | [(? & H & Hb) | [(? & H) | [(? & ? & H) | H]]]];
      try discriminate.
    injection H as <-. exact Hb.
Qed.

End Upload.

(** C9 on two runs: without a [Bucket] in [uploadOptions] the upload
    goes to the source bucket, with one it goes where the caller says,
    while the entries are still read from the source bucket. *)
Lemma upload_into_source_bucket_witness :
  (forall params,
     In (EvUpload params)
        (trace (archive Demo.env (Demo.drain 1 132) 0
                  (Demo.request None ["a.txt"] (JsStr "zip") ∅))) ->
     params !! "Bucket" = Some (PVal (JsStr "bucket")))
  /\ (forall params,
        In (EvUpload params)
           (trace (archive Demo.env (Demo.drain 1 132) 0
                     (Demo.request None ["a.txt"] (JsStr "zip")
                        {["Bucket" := PVal (JsStr "elsewhere")]}))) ->
        params !! "Bucket" = Some (PVal (JsStr "elsewhere")))
  /\ map rs_Bucket
       (opened (trace (archive Demo.env (Demo.drain 1 132) 0
                         (Demo.request None ["a.txt"] (JsStr "zip")
                            {["Bucket" := PVal (JsStr "elsewhere")]}))))
     = ["bucket"].
Proof.
  split; [|split].
  - intros params Hin.
    destruct (upload_into_source_bucket Demo.env (Demo.drain 1 132) 0
                (Demo.request None ["a.txt"] (JsStr "zip") ∅)) as (Hup & _).
    rewrite (Hup params Hin). vm_compute. reflexivity.
  - intros params Hin.
    destruct (upload_into_source_bucket Demo.env (Demo.drain 1 132) 0
                (Demo.request None ["a.txt"] (JsStr "zip")
                   {["Bucket" := PVal (JsStr "elsewhere")]})) as (Hup & _).
    rewrite (Hup params Hin). vm_compute. reflexivity.
  - vm_compute. reflexivity.
Defined.

(** A run of C8: the only append comes after the upload and the pipe. *)
Lemma upload_wired_before_append_witness :
  exists format rest,
    [EvArchiver "zip"; EvPassThrough;
     EvUpload (req_params (Demo.request None ["a.txt"] (JsStr "zip") ∅) "zip");
     EvPipe; EvGetObject (entry_stream "bucket" 0 "a.txt")]
    = ([EvArchiver format; EvPassThrough;
        EvUpload (req_params (Demo.request None ["a.txt"] (JsStr "zip") ∅) format);
        EvPipe] ++ rest)%list
    /\ req_params (Demo.request None ["a.txt"] (JsStr "zip") ∅) format !! "Body"
       = Some (PStream OutputStream).
Proof.
  destruct (upload_wired_before_append Demo.env (Demo.drain 1 132) 0
              (Demo.request None ["a.txt"] (JsStr "zip") ∅)
              [EvArchiver "zip"; EvPassThrough;
               EvUpload (req_params (Demo.request None ["a.txt"] (JsStr "zip") ∅) "zip");
               EvPipe; EvGetObject (entry_stream "bucket" 0 "a.txt")]
              (entry_stream "bucket" 0 "a.txt") "a.txt" [EvFinalize])
    as (format & rest & _ & Hb & _ & Hbody).
  - vm_compute. reflexivity.
  - exists format, rest. split; [exact Hb|]. apply Hbody.
    vm_compute. reflexivity.
Defined.

(** C8 as stated fails when [uploadOptions] carries a [Body]: the entry
    is appended although the one upload of the run does not read the
    encoder's output. *)
Lemma append_without_wired_upload :
  In (EvAppend (entry_stream "bucket" 0 "a.txt") "a.txt")
     (trace (archive Demo.env (Demo.drain 1 1) 0
               (Demo.request None ["a.txt"] (JsStr "zip")
                  {["Body" := PVal (JsStr "x")]})))
  /\ forall params,
       In (EvUpload params)
          (trace (archive Demo.env (Demo.drain 1 1) 0
                    (Demo.request None ["a.txt"] (JsStr "zip")
                       {["Body" := PVal (JsStr "x")]}))) ->
       params !! "Body" = Some (PVal (JsStr "x"))
       /\ params !! "Body" <> Some (PStream OutputStream).
Proof.
  split.
  - rewrite archive_trace.
    change (snd (executor_calls Demo.env 0
                   (Demo.request None ["a.txt"] (JsStr "zip")
                      {["Body" := PVal (JsStr "x")]})))
      with [EvArchiver "zip"; EvPassThrough;
            EvUpload (req_params
                        (Demo.request None ["a.txt"] (JsStr "zip")
                           {["Body" := PVal (JsStr "x")]}) "zip");
            EvPipe; EvGetObject (entry_stream "bucket" 0 "a.txt");
            EvAppend (entry_stream "bucket" 0 "a.txt") "a.txt"; EvFinalize].
    do 5 right. left. reflexivity.
  - intros params Hin.
    apply archive_trace_In in Hin
      as [(format & _ & [H|[H|[H|H]]]) | Hin]; try discriminate.
    + injection H as ->. unfold req_params.
      rewrite upload_params_lookup_Body.
      change (req_uploadOptions
                (Demo.request None ["a.txt"] (JsStr "zip")
                   {["Body" := PVal (JsStr "x")]}))
        with ({["Body" := PVal (JsStr "x")]} : gmap string ParamVal).
      rewrite lookup_singleton_eq. split; [reflexivity | discriminate].
    + exfalso. eapply stream_calls_no_upload. exact Hin.
Qed.

(** ** The calls of the [for] loop *)

Section Entries.

Context (env : Env) (b : string) (opts : ArchiverOptions).

Lemma listed_app t1 t2 : listed (t1 ++ t2) = (listed t1 ++ listed t2)%list.
Proof. apply flat_map_app. Qed.

Lemma opened_app t1 t2 : opened (t1 ++ t2) = (opened t1 ++ opened t2)%list.
Proof. apply flat_map_app. Qed.

Lemma appended_app t1 t2 : appended (t1 ++ t2) = (appended t1 ++ appended t2)%list.
Proof. apply flat_map_app. Qed.

Lemma listed_map_EvList l : listed (map EvList l) = l.
Proof. induction l as [|x l IH]; simpl; [reflexivity | now rewrite IH]. Qed.

Lemma opened_map_EvList l : opened (map EvList l) = [].
Proof. induction l as [|x l IH]; simpl; [reflexivity | exact IH]. Qed.

Lemma appended_map_EvList l : appended (map EvList l) = [].
Proof. induction l as [|x l IH]; simpl; [reflexivity | exact IH]. Qed.

Lemma map_rs_Key_entry_streams files : forall i,
  map rs_Key (entry_streams b i files) = files.
Proof.
  induction files as [|k files IH]; intros i; simpl; [reflexivity|].
  now rewrite IH.
Qed.

Lemma length_entry_streams files : forall i,
  List.length (entry_streams b i files) = List.length files.
Proof.
  induction files as [|k files IH]; intros i; simpl; [reflexivity|].
  now rewrite IH.
Qed.


(** One entry: it is always opened, never listed, and it is appended
    under its name once opening and naming have returned. *)
Lemma entry_calls_listed i k : listed (snd (entry_calls env b opts i k)) = [].
Proof.
  unfold entry_calls.
  destruct (createReadStream env (entry_stream b i k)); [reflexivity|].
  destruct (name_of opts k); destruct (s3FileNameTransform opts); reflexivity.
Qed.

Lemma entry_calls_opened i k :
  opened (snd (entry_calls env b opts i k)) = [entry_stream b i k].
Proof.
  unfold entry_calls.
  destruct (createReadStream env (entry_stream b i k)); [reflexivity|].
  destruct (name_of opts k); destruct (s3FileNameTransform opts); reflexivity.
Qed.

Lemma entry_calls_appended i k :
  appended (snd (entry_calls env b opts i k))
  = match createReadStream env (entry_stream b i k), name_of opts k with
    | None, inr name => [(entry_stream b i k, name)]
    | _, _ => []
    end.
Proof.
  unfold entry_calls.
  destruct (createReadStream env (entry_stream b i k)); [reflexivity|].
  destruct (name_of opts k); destruct (s3FileNameTransform opts); reflexivity.
Qed.


Lemma entry_throws_None i k :
  entry_throws env b opts i k = None ->
  exists name,
    name_of opts k = inr name
    /\ appended (snd (entry_calls env b opts i k)) = [(entry_stream b i k, name)].
Proof.
  unfold entry_throws. rewrite entry_calls_appended. unfold entry_calls.
  destruct (createReadStream env (entry_stream b i k)); [discriminate|].
  destruct (name_of opts k) as [e|name]; [discriminate|].
  intros _. exists name. auto.
Qed.


(** All entries go through: each is opened and appended once, in order. *)
Lemma entries_calls_all files : forall i,
  (forall j k, files !! j = Some k -> entry_throws env b opts (i + j) k = None) ->
  fst (entries_calls env b opts i files) = None
  /\ opened (snd (entries_calls env b opts i files)) = entry_streams b i files
  /\ map fst (appended (snd (entries_calls env b opts i files)))
     = entry_streams b i files
  /\ listed (snd (entries_calls env b opts i files)) = [].
Proof.
  induction files as [|k files IH]; intros i Hok; cbn [entries_calls].
  - repeat split.
  - pose proof (Hok 0 k eq_refl) as Hk. rewrite Nat.add_0_r in Hk.
    destruct (entry_throws_None i k Hk) as (name & Hname & Happ).
    pose proof (entry_calls_opened i k) as Hopen.
    pose proof (entry_calls_listed i k) as Hlist.
    unfold entry_throws in Hk.
    destruct (entry_calls env b opts i k) as [[e|] evs]; [discriminate|].
    cbn [fst snd] in *.
    destruct (IH (S i)) as (Hr & Ho & Ha & Hl).
    { intros j k' Hj. replace (S i + j) with (i + S j) by lia. apply Hok. exact Hj. }
    destruct (entries_calls env b opts (S i) files) as [r evs'].
    cbn [fst snd] in *.
    rewrite opened_app, appended_app, listed_app, map_app, Hopen, Happ, Ho, Ha, Hl, Hlist.
    repeat split. exact Hr.
Qed.

(** The converse: a loop that completes has passed every entry. *)
Lemma entries_calls_None files : forall i,
  fst (entries_calls env b opts i files) = None ->
  forall j k, files !! j = Some k -> entry_throws env b opts (i + j) k = None.
Proof.
  induction files as [|k files IH]; intros i Hr j k' Hj; [discriminate|].
  cbn [entries_calls] in Hr.
  destruct (entry_calls env b opts i k) as [[e|] evs] eqn:Ek; [discriminate|].
  destruct (entries_calls env b opts (S i) files) as [r evs'] eqn:Er.
  cbn [fst] in Hr. subst r.
  destruct j as [|j].
  - injection Hj as <-. rewrite Nat.add_0_r. unfold entry_throws. now rewrite Ek.
  - replace (i + S j) with (S i + j) by lia. apply IH; [now rewrite Er | exact Hj].
Qed.


(** In any case the entries opened are the first ones of [files]. *)
Lemma entries_calls_opened_prefix files : forall i,
  exists n,
    opened (snd (entries_calls env b opts i files))
    = entry_streams b i (take n files)
    /\ (fst (entries_calls env b opts i files) = None -> take n files = files).
Proof.
  induction files as [|k files IH]; intros i; cbn [entries_calls].
  - exists 0. split; reflexivity.
  - pose proof (entry_calls_opened i k) as Hopen.
    destruct (entry_calls env b opts i k) as [[e|] evs]; cbn [fst snd] in *.
    + exists 1. rewrite Hopen. split; [reflexivity | discriminate].
    + destruct (IH (S i)) as (n & Ho & Hall).
      destruct (entries_calls env b opts (S i) files) as [r evs'].
      cbn [fst snd] in *. exists (S n).
      rewrite opened_app, Hopen, Ho. split; [reflexivity|].
      intros Hr. cbn [take]. now rewrite Hall.
Qed.

End Entries.

(** ** C3, C4 and C6: the entries to archive *)

Section Enumeration.

Context (env : Env) (sched : Schedule).


Lemma list_calls_serves b p pages : forall fuel tok acc i,
  serves env b p i tok pages ->
  List.length pages <= fuel ->
  list_calls env fuel b p tok acc i
  = (Ret (acc ++ concat (map (page_keys p) pages))%list, requests b p tok pages).
Proof.
  induction pages as [|page rest IH]; intros fuel tok acc i Hs Hfuel; [destruct Hs|].
  destruct fuel as [|fuel]; [simpl in Hfuel; lia|].
  cbn [serves] in Hs. destruct Hs as (Hpage & Hrest).
  cbn [list_calls]. rewrite Hpage.
  destruct rest as [|page' rest'].
  - rewrite Hrest. simpl. rewrite app_nil_r. reflexivity.
  - destruct Hrest as (Htr & Hs). rewrite Htr. cbn [negb].
    rewrite (IH fuel _ (acc ++ page_keys p page)%list (S i) Hs)
      by (simpl in *; lia).
    cbn [map concat requests]. rewrite <- app_assoc. reflexivity.
Qed.


(** In general: the loop returns only on a page that is not truncated,
    and every page before it was. *)
Lemma list_calls_Ret b p : forall fuel tok acc i files,
  fst (list_calls env fuel b p tok acc i) = Ret files ->
  exists pages,
    serves env b p i tok pages
    /\ files = (acc ++ concat (map (page_keys p) pages))%list
    /\ snd (list_calls env fuel b p tok acc i) = requests b p tok pages.
Proof.
  induction fuel as [|fuel IH]; intros tok acc i files; cbn [list_calls];
    [discriminate|].
  destruct (listObjectsV2 env i (s3ObjectsProps b p tok)) as [e|page] eqn:Hpage;
    [discriminate|].
  destruct (IsTruncated page) eqn:Htr; cbn [negb].
  - specialize (IH (CTNext (NextContinuationToken page))
                  (acc ++ page_keys p page)%list (S i) files).
    destruct (list_calls env fuel b p (CTNext (NextContinuationToken page))
                (acc ++ page_keys p page) (S i)) as [r l].
    cbn [fst snd] in *. intros Hr.
    destruct (IH Hr) as (pages & Hs & Hfiles & Hl).
    exists (page :: pages). cbn [serves requests map concat].
    destruct pages as [|page' rest]; [destruct Hs|].
    split; [split; [exact Hpage | split; [exact Htr | exact Hs]]|].
    split; [rewrite Hfiles, <- app_assoc; reflexivity | now rewrite Hl].
  - intros [= <-]. exists [page]. simpl. rewrite app_nil_r. auto.
Qed.

Lemma filter_concat_map {A B} (f : B -> bool) (g : A -> list B) l :
  concat (map (fun x => List.filter f (g x)) l)
  = List.filter f (concat (map g l)).
Proof.
  induction l as [|x l IH]; simpl; [reflexivity|].
  now rewrite List.filter_app, IH.
Qed.

Lemma entries_calls_listed b opts files : forall i,
  listed (snd (entries_calls env b opts i files)) = [].
Proof.
  induction files as [|k files IH]; intros i; cbn [entries_calls]; [reflexivity|].
  pose proof (entry_calls_listed env b opts i k) as Hk.
  destruct (entry_calls env b opts i k) as [[e|] evs]; cbn [snd] in *; [exact Hk|].
  specialize (IH (S i)).
  destruct (entries_calls env b opts (S i) files) as [r evs']. cbn [snd] in *.
  now rewrite listed_app, Hk, IH.
Qed.

Lemma entries_calls_no_finalize b opts files : forall i,
  ~ In EvFinalize (snd (entries_calls env b opts i files)).
Proof.
  intros i Hin. apply entries_calls_In in Hin as (j & k & _ & [H|[H|(n & H & _)]]);
    discriminate.
Qed.

(** Whatever was resolved, the run lists at most what the enumeration
    listed, and it opens the resolved entries in order: all of them when
    it reaches [finalize], the first ones at least otherwise. *)
Lemma archive_opens_resolved fuel req files lists :
  resolve_calls env fuel (sourceBucket req) (req_sourcePath req)
    (req_sourceFiles req) 0 = (Ret files, lists) ->
  (listed (trace (archive env sched fuel req)) = lists
   \/ listed (trace (archive env sched fuel req)) = [])
  /\ (exists n,
        map rs_Key (opened (trace (archive env sched fuel req))) = take n files)
  /\ (In EvFinalize (trace (archive env sched fuel req)) ->
      map rs_Key (opened (trace (archive env sched fuel req))) = files).
Proof.
  intros Hres. rewrite archive_trace.
  destruct (executor_calls_shape env fuel req)
    as [-> | (format & Hf & [-> | [-> | ->]])].
  - split; [auto|]. split; [exists 0; reflexivity | intros []].
  - split; [auto|]. split; [exists 0; reflexivity|].
    simpl. intuition discriminate.
  - split; [auto|]. split; [exists 0; reflexivity|].
    simpl. intuition discriminate.
  - unfold stream_calls. rewrite Hres.
    destruct (entries_calls_opened_prefix env (sourceBucket req)
                (req_archiverOptions req) files 0) as (n & Hopen & Hall).
    pose proof (entries_calls_listed (sourceBucket req)
                  (req_archiverOptions req) files 0) as Hlist.
    pose proof (entries_calls_no_finalize (sourceBucket req)
                  (req_archiverOptions req) files 0) as Hnofin.
    destruct (entries_calls env (sourceBucket req) (req_archiverOptions req) 0 files)
      as [[e|] evs]; cbn [fst snd] in *.
    + rewrite listed_app, !opened_app, listed_app, listed_map_EvList,
        opened_map_EvList, Hlist, Hopen, app_nil_r.
      cbn [opened flat_map app]. rewrite map_rs_Key_entry_streams.
      split; [auto|]. split; [exists n; reflexivity|].
      intros Hin. exfalso.
      destruct Hin as [H|[H|[H|[H|Hin]]]]; try discriminate.
      apply in_app_or in Hin as [Hin|Hin]; [|auto].
      apply in_map_iff in Hin as (x & Hx & _). discriminate.
    + rewrite listed_app, !opened_app, !listed_app, listed_map_EvList,
        opened_map_EvList, Hlist, Hopen.
      cbn [opened listed flat_map app]. rewrite !app_nil_r, map_rs_Key_entry_streams.
      split; [auto|]. split; [exists n; reflexivity|].
      intros _. apply Hall. reflexivity.
Qed.

End Enumeration.

Section EnumerationClaims.

Context (env : Env) (sched : Schedule).

Lemma resolve_calls_explicit fuel b p files i :
  files <> [] ->
  resolve_calls env fuel b p files i
  = (Ret (map (fun file => p +:+ file) files), []).
Proof.
  intros Hne. unfold resolve_calls.
  destruct files as [|f files]; [congruence | reflexivity].
Qed.

Lemma resolve_calls_listing fuel b p pages i :
  serves env b p i CTNull pages ->
  List.length pages <= fuel ->
  resolve_calls env fuel b p [] i
  = (Ret (concat (map (page_keys p) pages)), requests b p CTNull pages).
Proof.
  intros Hs Hfuel. unfold resolve_calls. cbn [List.length Nat.ltb Nat.leb].
  rewrite (list_calls_serves env b p pages fuel CTNull [] i Hs Hfuel).
  reflexivity.
Qed.

(** C4: with a non-empty list of explicit entries no listing call is
    made, and the entries resolved are [sourcePath + entry] for each
    entry, in the caller's order; they are the entries the run then
    opens, in that order. *)
Theorem explicit_entries_precedence fuel req :
  req_sourceFiles req <> [] ->
  (forall w,
     resolve_sourceFiles env sched fuel (sourceBucket req) (req_sourcePath req)
       (req_sourceFiles req) w
     = (Ret (map (fun file => req_sourcePath req +:+ file) (req_sourceFiles req)), w))
  /\ listed (trace (archive env sched fuel req)) = []
  /\ (exists n,
        map rs_Key (opened (trace (archive env sched fuel req)))
        = take n (map (fun file => req_sourcePath req +:+ file)
                    (req_sourceFiles req)))
  /\ (In EvFinalize (trace (archive env sched fuel req)) ->
      map rs_Key (opened (trace (archive env sched fuel req)))
      = map (fun file => req_sourcePath req +:+ file) (req_sourceFiles req)).
Proof.
  intros Hne.
  destruct (archive_opens_resolved env sched fuel req _ _
              (resolve_calls_explicit fuel (sourceBucket req) (req_sourcePath req)
                 (req_sourceFiles req) 0 Hne)) as (Hl & Hopen & Hall).
  split.
  - intros w. unfold resolve_sourceFiles.
    destruct (req_sourceFiles req); [congruence | reflexivity].
  - split; [destruct Hl; assumption|]. split; assumption.
Qed.

(** C3: with no explicit entries, when the lister serves [pages] for the
    bucket and prefix of the request, the entries resolved are the keys
    of all pages, concatenated in page order and in the order within each
    page, without the keys equal to [sourcePath]; they are the entries
    the run then opens, in that order. *)
Theorem entry_set_completeness fuel req pages :
  req_sourceFiles req = [] ->
  serves env (sourceBucket req) (req_sourcePath req) 0 CTNull pages ->
  List.length pages <= fuel ->
  (forall w, awaits w = 0 ->
     exists w',
       resolve_sourceFiles env sched fuel (sourceBucket req) (req_sourcePath req)
         (req_sourceFiles req) w
       = (Ret (List.filter (fun k => negb (String.eqb k (req_sourcePath req)))
                 (concat (map (fun page => map Key (Contents page)) pages))), w'))
  /\ (exists n,
        map rs_Key (opened (trace (archive env sched fuel req)))
        = take n (List.filter (fun k => negb (String.eqb k (req_sourcePath req)))
                    (concat (map (fun page => map Key (Contents page)) pages))))
  /\ (In EvFinalize (trace (archive env sched fuel req)) ->
      map rs_Key (opened (trace (archive env sched fuel req)))
      = List.filter (fun k => negb (String.eqb k (req_sourcePath req)))
          (concat (map (fun page => map Key (Contents page)) pages))).
Proof.
  intros Hnil Hs Hfuel.
  pose proof (resolve_calls_listing fuel _ _ pages 0 Hs Hfuel) as Hres.
  unfold page_keys in Hres. rewrite filter_concat_map in Hres.
  rewrite <- Hnil in Hres at 1.
  destruct (archive_opens_resolved env sched fuel req _ _ Hres) as (_ & Hopen & Hall).
  split; [|split; assumption].
  intros w Hw.
  destruct (resolve_sourceFiles_spec env sched fuel (sourceBucket req)
              (req_sourcePath req) (req_sourceFiles req) w) as (w' & Hrun & _).
  rewrite Hw, Hres in Hrun. exists w'. exact Hrun.
Qed.


End EnumerationClaims.

(** C4 on two explicit entries under [docs/]. *)
Lemma explicit_entries_precedence_witness :
  resolve_sourceFiles Demo.env (Demo.drain 2 0) 0 "bucket" "docs/"
    ["a.txt"; "b.txt"] initial
  = (Ret ["docs/a.txt"; "docs/b.txt"], initial)
  /\ listed (trace (archive Demo.env (Demo.drain 2 0) 0
                      (Demo.request (Some "docs/") ["a.txt"; "b.txt"]
                         (JsStr "zip") ∅))) = []
  /\ map rs_Key (opened (trace (archive Demo.env (Demo.drain 2 0) 0
                                  (Demo.request (Some "docs/") ["a.txt"; "b.txt"]
                                     (JsStr "zip") ∅))))
     = ["docs/a.txt"; "docs/b.txt"].
Proof.
  destruct (explicit_entries_precedence Demo.env (Demo.drain 2 0) 0
              (Demo.request (Some "docs/") ["a.txt"; "b.txt"] (JsStr "zip") ∅))
    as (Hres & Hlist & _ & Hall); [discriminate|].
  split; [apply (Hres initial)|]. split; [exact Hlist|].
  apply Hall. vm_compute. intuition.
Defined.

(** C3 on the four pages of the demo store: the directory marker
    [docs/] is dropped, the other keys come in page order. *)
Lemma entry_set_completeness_witness :
  (exists w',
     resolve_sourceFiles Demo.env (Demo.drain 3 0) 4 "bucket" "docs/" [] initial
     = (Ret ["docs/a.txt"; "docs/sub/b.txt"; "docs/c.txt"], w'))
  /\ map rs_Key (opened (trace (archive Demo.env (Demo.drain 3 0) 4
                                  (Demo.request (Some "docs/") [] (JsStr "zip") ∅))))
     = ["docs/a.txt"; "docs/sub/b.txt"; "docs/c.txt"].
Proof.
  destruct (entry_set_completeness Demo.env (Demo.drain 3 0) 4
              (Demo.request (Some "docs/") [] (JsStr "zip") ∅) Demo.pages)
    as (Hres & _ & Hall).
  - reflexivity.
  - simpl. repeat split; reflexivity.
  - simpl. lia.
  - split; [apply (Hres initial); reflexivity|].
    apply Hall. vm_compute. intuition.
Defined.


(** ** C7: the names of the entries *)

Section Basename.

Lemma prefix_slash c s :
  String.prefix "/" (String c s) = if ascii_dec "/" c then true else false.
Proof.
  cbn [String.prefix]. destruct (ascii_dec "/" c); [|reflexivity].
  destruct s; reflexivity.
Qed.

(** [lastIndexOf_from "/" s i best] is [best] when [s] has no slash, and
    otherwise the position, counted from [i], of its last slash. *)
Lemma lastIndexOf_from_slash s : forall i best,
  (~ has_slash s /\ lastIndexOf_from "/" s i best = best)
  \/ (exists pre post,
        s = pre +:+ String "/" post /\ ~ has_slash post
        /\ lastIndexOf_from "/" s i best = (i + Z.of_nat (String.length pre))%Z).
Proof.
  induction s as [|c s IH]; intros i best.
  - left. split; [intros [] | reflexivity].
  - cbn [lastIndexOf_from]. rewrite prefix_slash.
    destruct (IH (i + 1)%Z (if if ascii_dec "/" c then true else false
                            then i else best))
      as [(Hno & Hr) | (pre & post & Hs & Hno & Hr)].
    + rewrite Hr. destruct (ascii_dec "/" c) as [<-|Hc].
      * right. exists EmptyString, s. split; [reflexivity|]. split; [exact Hno|].
        simpl. lia.
      * left. split; [|reflexivity].
        intros [Hin|Hin]; [congruence | exact (Hno Hin)].
    + right. exists (String c pre), post. split; [simpl; now rewrite Hs|].
      split; [exact Hno|]. rewrite Hr. cbn [String.length]. lia.
Qed.

Lemma drop_string_append pre c post :
  drop_string (String.length pre + 1) (pre +:+ String c post) = post.
Proof. induction pre as [|c' pre IH]; [reflexivity | exact IH]. Qed.

(** The default name of an entry: the key itself when it has no slash,
    and otherwise what follows its last slash. *)
Lemma default_name_spec k :
  ~ has_slash (substring k (lastIndexOf k "/" + 1))
  /\ ((~ has_slash k /\ substring k (lastIndexOf k "/" + 1) = k)
      \/ exists dir,
           k = dir +:+ "/" +:+ substring k (lastIndexOf k "/" + 1)).
Proof.
  unfold lastIndexOf, substring.
  destruct (lastIndexOf_from_slash k 0 (-1))
    as [(Hno & ->) | (pre & post & Hk & Hno & ->)].
  - simpl. split; [exact Hno|]. left. split; [exact Hno | reflexivity].
  - replace (Z.to_nat (Z.max 0 (0 + Z.of_nat (String.length pre) + 1)))
      with (String.length pre + 1) by lia.
    assert (drop_string (String.length pre + 1) k = post) as ->.
    { rewrite Hk. apply drop_string_append. }
    split; [exact Hno|]. right. exists pre. exact Hk.
Qed.

End Basename.

Section Names.

Context (env : Env) (sched : Schedule).

(** A run that reaches [finalize] has resolved its entries and passed
    each of them through the loop. *)
Lemma archive_finalized fuel req :
  In EvFinalize (trace (archive env sched fuel req)) ->
  exists format files lists evs,
    req_format req = inr format
    /\ resolve_calls env fuel (sourceBucket req) (req_sourcePath req)
         (req_sourceFiles req) 0 = (Ret files, lists)
    /\ entries_calls env (sourceBucket req) (req_archiverOptions req) 0 files
       = (None, evs)
    /\ trace (archive env sched fuel req)
       = ([EvArchiver format; EvPassThrough; EvUpload (req_params req format);
           EvPipe] ++ map EvList lists ++ evs ++ [EvFinalize])%list.
Proof.
  rewrite archive_trace.
  destruct (executor_calls_shape env fuel req)
    as [-> | (format & Hf & [-> | [-> | ->]])].
  - intros [].
  - simpl. intuition discriminate.
  - simpl. intuition discriminate.
  - unfold stream_calls.
    destruct (resolve_calls env fuel (sourceBucket req) (req_sourcePath req)
                (req_sourceFiles req) 0) as [[files|e|] lists] eqn:Hres.
    + pose proof (entries_calls_no_finalize env (sourceBucket req)
                    (req_archiverOptions req) files 0) as Hnofin.
      destruct (entries_calls env (sourceBucket req) (req_archiverOptions req)
                  0 files) as [[e|] evs] eqn:Hent; cbn [snd] in *.
      * intros Hin. exfalso. cbn [app] in Hin.
        destruct Hin as [H|[H|[H|[H|Hin]]]]; try discriminate.
        apply in_app_or in Hin as [Hin|Hin]; [|auto].
        apply in_map_iff in Hin as (x & Hx & _). discriminate.
      * intros _. exists format, files, lists, evs. auto.
    + cbn [snd]. intros Hin. exfalso. cbn [app] in Hin.
      destruct Hin as [H|[H|[H|[H|Hin]]]]; try discriminate.
      apply in_map_iff in Hin as (x & Hx & _). discriminate.
    + cbn [snd]. intros Hin. exfalso. cbn [app] in Hin.
      destruct Hin as [H|[H|[H|[H|Hin]]]]; try discriminate.
      apply in_map_iff in Hin as (x & Hx & _). discriminate.
Qed.

(** C7: every name handed to the encoder is the naming policy applied
    to the full key of the entry when a policy is given, and otherwise
    the part of the key after its last slash (the whole key when it has
    none); a run that reaches [finalize] has appended exactly one name
    per resolved entry, in the order of the entries. *)
Theorem entry_names fuel req :
  (forall s name,
     In (EvAppend s name) (trace (archive env sched fuel req)) ->
     match s3FileNameTransform (req_archiverOptions req) with
     | Some namingPolicy => namingPolicy (rs_Key s) = inr name
     | None =>
         name = substring (rs_Key s) (lastIndexOf (rs_Key s) "/" + 1)
         /\ ~ has_slash name
         /\ ((~ has_slash (rs_Key s) /\ name = rs_Key s)
             \/ exists dir, rs_Key s = dir +:+ "/" +:+ name)
     end)
  /\ (In EvFinalize (trace (archive env sched fuel req)) ->
      exists files,
        (forall w, awaits w = 0 ->
           exists w',
             resolve_sourceFiles env sched fuel (sourceBucket req)
               (req_sourcePath req) (req_sourceFiles req) w = (Ret files, w'))
        /\ map (fun sn => rs_Key (fst sn))
             (appended (trace (archive env sched fuel req))) = files
        /\ map fst (appended (trace (archive env sched fuel req)))
           = opened (trace (archive env sched fuel req)))
  /\ substring "dir/sub/file.txt" (lastIndexOf "dir/sub/file.txt" "/" + 1)
     = "file.txt".
Proof.
  split; [|split; [|reflexivity]].
  - intros s name Hin. rewrite archive_trace in Hin.
    assert (name_of (req_archiverOptions req) (rs_Key s) = inr name) as Hname.
    { destruct (executor_calls_shape env fuel req)
        as [Hnil | (format & Hf & [H1 | [H3 | H4]])].
      - rewrite Hnil in Hin. destruct Hin.
      - rewrite H1 in Hin. simpl in Hin. intuition discriminate.
      - rewrite H3 in Hin. simpl in Hin. intuition discriminate.
      - rewrite H4 in Hin. apply in_app_or in Hin as [Hin|Hin];
          [simpl in Hin; intuition discriminate|].
        destruct (stream_calls_In env fuel req _ Hin)
          as [(props & H & _) | [(files & _ & (j & k & _ & Hev)) | H]];
          try discriminate.
        destruct Hev as [H | [H | (name' & H & Hn)]]; try discriminate.
        injection H as -> ->. exact Hn. }
    unfold name_of in Hname.
    destruct (s3FileNameTransform (req_archiverOptions req)); [exact Hname|].
    injection Hname as <-.
    split; [reflexivity|]. apply default_name_spec.
  - intros Hfin.
    destruct (archive_finalized fuel req Hfin)
      as (format & files & lists & evs & _ & Hres & Hent & ->).
    pose proof (entries_calls_None env (sourceBucket req) (req_archiverOptions req)
                  files 0) as Hnone.
    rewrite Hent in Hnone. specialize (Hnone eq_refl).
    destruct (entries_calls_all env (sourceBucket req) (req_archiverOptions req)
                files 0 Hnone) as (_ & Ho & Ha & _).
    rewrite Hent in Ho, Ha. cbn [snd] in Ho, Ha.
    rewrite !appended_app, !opened_app, appended_map_EvList, opened_map_EvList.
    cbn [appended opened flat_map app]. rewrite !app_nil_r, Ho.
    exists files. split; [|split; [|exact Ha]].
    + intros w Hw.
      destruct (resolve_sourceFiles_spec env sched fuel (sourceBucket req)
                  (req_sourcePath req) (req_sourceFiles req) w) as (w' & Hrun & _).
      rewrite Hw, Hres in Hrun. exists w'. exact Hrun.
    + rewrite <- (map_map fst rs_Key), Ha. apply map_rs_Key_entry_streams.
Qed.

End Names.

(** C7 with that policy, and with none, on the same two entries. *)
Lemma entry_names_witness :
  appended (trace (archive Demo.env (Demo.drain 2 0) 0
                     {| sourceBucket := "bucket"; sourcePathPrefix := Some "dir/";
                        sourceFiles := Some ["sub/file.txt"; "b.txt"];
                        outputFilename := None; outputFormat := JsUndefined;
                        uploadOptions := None;
                        archiverOptions := Some upper_case_policy |}))
  = [ (entry_stream "bucket" 0 "dir/sub/file.txt", "DIR/SUB/FILE.TXT");
      (entry_stream "bucket" 1 "dir/b.txt", "DIR/B.TXT") ]
  /\ map fst (appended (trace (archive Demo.env (Demo.drain 2 0) 0
                     (Demo.request (Some "dir/") ["sub/file.txt"; "b.txt"]
                        JsUndefined ∅))))
     = opened (trace (archive Demo.env (Demo.drain 2 0) 0
                     (Demo.request (Some "dir/") ["sub/file.txt"; "b.txt"]
                        JsUndefined ∅)))
  /\ map snd (appended (trace (archive Demo.env (Demo.drain 2 0) 0
                     (Demo.request (Some "dir/") ["sub/file.txt"; "b.txt"]
                        JsUndefined ∅))))
     = ["file.txt"; "b.txt"].
Proof.
  split; [vm_compute; reflexivity|].
  split; [|vm_compute; reflexivity].
  destruct (entry_names Demo.env (Demo.drain 2 0) 0
              (Demo.request (Some "dir/") ["sub/file.txt"; "b.txt"] JsUndefined ∅))
    as (_ & Hfin & _).
  destruct Hfin as (files & _ & _ & Heq); [vm_compute; intuition | exact Heq].
Defined.

(** ** C2: failures while the entries are appended *)

Section FailFastInvariants.

Context (env : Env).

Lemma settled_by_callback_stable : stable env settled_by_callback.
Proof.
  split; [split|..].
  - intros ev w H. exact H.
  - intros s name w H. exact H.
  - intros w H. exact H.
  - intros a w H. unfold settled_by_callback in *.
    destruct a; unfold act;
      repeat match goal with
      | |- context [match ?x with _ => _ end] => destruct x eqn:?; try exact H
      end; simpl; try exact H; try reflexivity;
      try (intros Hp; apply H in Hp; congruence).
    all: unfold upload_callback, resolve, reject, settle; simpl;
      destruct (promise w); reflexivity.
Qed.

Lemma unfinished_stable : stable env unfinished.
Proof.
  split; [split|..].
  - intros ev w H. exact H.
  - intros s name w H. exact H.
  - intros w H. exact H.
  - intros a w H. pose proof H as (Hf & Hs). unfold unfinished.
    destruct a; unfold act;
      repeat match goal with
      | |- context [match ?x with _ => _ end] => destruct x eqn:?; try exact H
      end; simpl; try congruence; try (split; [assumption | congruence]).
    all: unfold upload_callback, resolve, reject, settle; simpl;
      destruct (promise w); simpl; split; congruence.
Qed.

Lemma unfinished_reject e w : unfinished w -> unfinished (reject e w).
Proof.
  intros H. unfold reject, settle. destruct (promise w); exact H.
Qed.


End FailFastInvariants.

Section FailFast.

Context (env : Env) (sched : Schedule).

Lemma try_body_streaming fuel req format :
  req_format req = inr format ->
  archiver_create env format = None ->
  upload_check env (req_params req format) = None ->
  try_body env sched fuel req initial
  = stream_entries env sched fuel req (init_world req format).
Proof.
  intros Hf Ha Hu. rewrite try_body_unfold, format_of_default, Hf.
  unfold bind at 1, ret, call, modify. cbn beta iota.
  unfold bind. rewrite Ha, Hu. reflexivity.
Qed.




End FailFast.



(** * Further properties of [archive] *)

(** ** Errors before the enumeration *)


Section EarlyErrors.

Context (env : Env) (sched : Schedule).

(** X1: the calls [archive] makes are the same under every schedule of
    the event loop: whatever the upload does meanwhile, even when it
    fails and the promise is already rejected, the program goes on
    listing, opening and appending, and finalizes. *)
Theorem calls_independent_of_schedule sched' fuel req :
  trace (archive env sched fuel req) = trace (archive env sched' fuel req).
Proof. rewrite !archive_trace. reflexivity. Qed.

(** X2: when [archiver(format)] throws, the promise is rejected with
    that error and nothing else has been called: no upload is started.
    The format handed over is the caller's own spelling, so ['ZIP']
    passes line 46 and reaches the encoder as ['ZIP']. *)
Theorem archiver_failure_rejects fuel req format e :
  req_format req = inr format ->
  archiver_create env format = Some e ->
  promise (archive env sched fuel req) = Rejected e
  /\ trace (archive env sched fuel req) = [EvArchiver format]
  /\ sink (archive env sched fuel req) = SinkIdle
  /\ piped (archive env sched fuel req) = false.
Proof.
  intros Hf Ha.
  assert (archive env sched fuel req = reject e (log (EvArchiver format) initial))
    as ->.
  { unfold archive, executor.
    rewrite try_body_unfold, format_of_default, Hf.
    unfold bind, ret, call. rewrite Ha.
    apply run_actions_idle; reflexivity. }
  repeat split.
Qed.

(** X3: when [s3.upload] itself throws, the promise is rejected with
    that error; the encoder has been created but is never piped, nothing
    is listed, opened or appended, and [finalize] is not called. *)
Theorem upload_throw_rejects fuel req format e :
  req_format req = inr format ->
  archiver_create env format = None ->
  upload_check env (req_params req format) = Some e ->
  promise (archive env sched fuel req) = Rejected e
  /\ trace (archive env sched fuel req)
     = [EvArchiver format; EvPassThrough; EvUpload (req_params req format)]
  /\ sink (archive env sched fuel req) = SinkIdle
  /\ piped (archive env sched fuel req) = false.
Proof.
  intros Hf Ha Hu.
  assert (archive env sched fuel req
          = reject e (log (EvUpload (req_params req format))
                        (log EvPassThrough (log (EvArchiver format) initial))))
    as ->.
  { unfold archive, executor.
    rewrite try_body_unfold, format_of_default, Hf.
    unfold bind, ret, call. rewrite Ha, Hu.
    apply run_actions_idle; reflexivity. }
  repeat split.
Qed.

End EarlyErrors.

(** X1 on a run whose upload fails during the first listing call: the
    promise is rejected with the upload's error, and the three listed
    entries have been appended and the encoder finalized all the same. *)
Lemma calls_independent_of_schedule_witness :
  promise (archive Demo.env upload_fails_early 4
             (Demo.request (Some "docs/") [] (JsStr "zip") ∅))
  = Rejected (UploadFailure "AccessDenied")
  /\ map rs_Key (opened (trace (archive Demo.env upload_fails_early 4
                                  (Demo.request (Some "docs/") [] (JsStr "zip") ∅))))
     = ["docs/a.txt"; "docs/sub/b.txt"; "docs/c.txt"]
  /\ In EvFinalize (trace (archive Demo.env upload_fails_early 4
                             (Demo.request (Some "docs/") [] (JsStr "zip") ∅))).
Proof.
  split; [vm_compute; reflexivity|].
  rewrite (calls_independent_of_schedule Demo.env upload_fails_early
             (Demo.drain 3 0) 4
             (Demo.request (Some "docs/") [] (JsStr "zip") ∅)).
  split; [vm_compute; reflexivity | vm_compute; intuition].
Defined.

(** X2 on ['ZIP']: accepted by the validation, refused by the encoder. *)
Lemma archiver_failure_rejects_witness :
  promise (archive Demo.env (Demo.drain 1 0) 0
             (Demo.request None ["a.txt"] (JsStr "ZIP") ∅))
  = Rejected (FormatError "format not registered")
  /\ trace (archive Demo.env (Demo.drain 1 0) 0
              (Demo.request None ["a.txt"] (JsStr "ZIP") ∅))
     = [EvArchiver "ZIP"].
Proof.
  destruct (archiver_failure_rejects Demo.env (Demo.drain 1 0) 0
              (Demo.request None ["a.txt"] (JsStr "ZIP") ∅) "ZIP"
              (FormatError "format not registered") eq_refl eq_refl)
    as (Hp & Ht & _).
  split; assumption.
Defined.

(** X3 on [uploadOptions = {Body: null}]. *)
Lemma upload_throw_rejects_witness :
  promise (archive body_required_env (Demo.drain 1 0) 0
             (Demo.request None ["a.txt"] (JsStr "zip")
                {["Body" := PVal JsNull]}))
  = Rejected (UploadFailure "params.Body is required")
  /\ piped (archive body_required_env (Demo.drain 1 0) 0
              (Demo.request None ["a.txt"] (JsStr "zip")
                 {["Body" := PVal JsNull]})) = false.
Proof.
  destruct (upload_throw_rejects body_required_env (Demo.drain 1 0) 0
              (Demo.request None ["a.txt"] (JsStr "zip") {["Body" := PVal JsNull]})
              "zip" (UploadFailure "params.Body is required"))
    as (Hp & _ & _ & Hpipe).
  - reflexivity.
  - reflexivity.
  - vm_compute. reflexivity.
  - split; assumption.
Defined.

(** ** More on the enumeration *)


Section MoreEnumeration.

Context (env : Env) (sched : Schedule).

(** What a [throw] between the pipe and [finalize] does to the promise. *)
Lemma throw_rejects fuel req format e w2 :
  req_format req = inr format ->
  archiver_create env format = None ->
  upload_check env (req_params req format) = None ->
  stream_entries env sched fuel req (init_world req format) = (Throw e, w2) ->
  (promise (archive env sched fuel req) = Rejected e
   \/ sink (executor env sched fuel req) = SinkCalledBack)
  /\ promise (archive env sched fuel req) <> Pending
  /\ (req_uploadOptions req !! "Body" = None ->
      forall r, promise (archive env sched fuel req) <> Resolved r).
Proof.
  intros Hf Ha Hu Hstream.
  pose proof (try_body_streaming env sched fuel req format Hf Ha Hu) as Hbody.
  assert (executor env sched fuel req = reject e w2) as Hexec.
  { unfold executor. rewrite Hbody, Hstream. reflexivity. }
  assert (settled_by_callback w2) as Hcb.
  { eapply (stream_entries_unfinished env sched _ (settled_by_callback_stable env));
      [|exact Hstream|discriminate].
    intros Hp. exfalso. apply Hp. reflexivity. }
  assert (promise (reject e w2) <> Pending) as Hsettled.
  { unfold reject, settle. destruct (promise w2) eqn:Ep; simpl; congruence. }
  assert (promise (archive env sched fuel req) = promise (reject e w2)) as Hfinal.
  { unfold archive. rewrite Hexec. apply run_actions_settled. exact Hsettled. }
  split.
  { rewrite Hfinal, Hexec. unfold reject, settle.
    destruct (promise w2) eqn:Ep; simpl.
    - left. reflexivity.
    - right. apply Hcb. congruence.
    - right. apply Hcb. congruence. }
  split; [rewrite Hfinal; exact Hsettled|].
  intros Hb r Hr.
  pose proof (archive_conserving env sched fuel req Hb) as (_ & _ & Hc).
  destruct (Hc r Hr) as (_ & Hend & _).
  assert (unfinished (archive env sched fuel req)) as (_ & Hun).
  { unfold archive. rewrite Hexec.
    apply (run_actions_stable env _ (unfinished_stable env)).
    apply unfinished_reject.
    eapply (stream_entries_unfinished env sched _ (unfinished_stable env));
      [|exact Hstream|discriminate].
    split; [reflexivity | discriminate]. }
  exact (Hun Hend).
Qed.

Lemma list_calls_fails b p e pages : forall fuel tok acc i,
  fails_after env b p i tok pages e ->
  List.length pages < fuel ->
  list_calls env fuel b p tok acc i
  = (Throw e, (requests b p tok pages
               ++ [s3ObjectsProps b p (token_after tok pages)])%list).
Proof.
  induction pages as [|page rest IH]; intros fuel tok acc i Hs Hfuel;
    (destruct fuel as [|fuel]; [simpl in Hfuel; lia|]);
    cbn [fails_after] in Hs; cbn [list_calls].
  - rewrite Hs. reflexivity.
  - destruct Hs as (Hpage & Htr & Hrest). rewrite Hpage, Htr. cbn [negb].
    rewrite (IH fuel _ (acc ++ page_keys p page)%list (S i) Hrest)
      by (simpl in Hfuel; lia).
    reflexivity.
Qed.

Lemma list_calls_endless b p :
  always_truncated env ->
  forall fuel tok acc i,
    fst (list_calls env fuel b p tok acc i) = Running
    /\ List.length (snd (list_calls env fuel b p tok acc i)) = fuel.
Proof.
  intros Hall. induction fuel as [|fuel IH]; intros tok acc i; [split; reflexivity|].
  cbn [list_calls].
  destruct (Hall i (s3ObjectsProps b p tok)) as (page & -> & ->). cbn [negb].
  specialize (IH (CTNext (NextContinuationToken page))
                (acc ++ page_keys p page)%list (S i)).
  destruct (list_calls env fuel b p (CTNext (NextContinuationToken page))
              (acc ++ page_keys p page) (S i)) as [r l].
  cbn [fst snd] in *. destruct IH as (-> & Hl). split; [reflexivity|].
  simpl. now rewrite Hl.
Qed.

(** The trace when the upload has been wired and the enumeration does
    not return. *)
Lemma archive_trace_no_entries fuel req format r lists :
  req_format req = inr format ->
  archiver_create env format = None ->
  upload_check env (req_params req format) = None ->
  resolve_calls env fuel (sourceBucket req) (req_sourcePath req)
    (req_sourceFiles req) 0 = (r, lists) ->
  (forall files, r <> Ret files) ->
  trace (archive env sched fuel req)
  = ([EvArchiver format; EvPassThrough; EvUpload (req_params req format); EvPipe]
     ++ map EvList lists)%list.
Proof.
  intros Hf Ha Hu Hres Hr. rewrite archive_trace. unfold executor_calls.
  rewrite Hf, Ha, Hu. unfold stream_calls. rewrite Hres.
  destruct r as [files| |]; [destruct (Hr files eq_refl) | reflexivity | reflexivity].
Qed.

(** X4: when a listing call is rejected, whatever the number of pages
    received before, the promise is rejected with that error (unless the
    upload callback settled it before), no result is produced (as long
    as [uploadOptions] leaves [Body] alone), and nothing is archived: the
    keys of the pages already received are dropped, no entry is opened
    or appended, and [finalize] is not called. *)
Theorem listing_failure_rejects fuel req format pages e :
  req_sourceFiles req = [] ->
  req_format req = inr format ->
  archiver_create env format = None ->
  upload_check env (req_params req format) = None ->
  fails_after env (sourceBucket req) (req_sourcePath req) 0 CTNull pages e ->
  List.length pages < fuel ->
  (promise (archive env sched fuel req) = Rejected e
   \/ sink (executor env sched fuel req) = SinkCalledBack)
  /\ promise (archive env sched fuel req) <> Pending
  /\ (req_uploadOptions req !! "Body" = None ->
      forall r, promise (archive env sched fuel req) <> Resolved r)
  /\ listed (trace (archive env sched fuel req))
     = (requests (sourceBucket req) (req_sourcePath req) CTNull pages
        ++ [s3ObjectsProps (sourceBucket req) (req_sourcePath req)
              (token_after CTNull pages)])%list
  /\ opened (trace (archive env sched fuel req)) = []
  /\ appended (trace (archive env sched fuel req)) = []
  /\ ~ In EvFinalize (trace (archive env sched fuel req)).
Proof.
  intros Hnil Hf Ha Hu Hfail Hfuel.
  assert (resolve_calls env fuel (sourceBucket req) (req_sourcePath req)
            (req_sourceFiles req) 0
          = (Throw e,
             (requests (sourceBucket req) (req_sourcePath req) CTNull pages
              ++ [s3ObjectsProps (sourceBucket req) (req_sourcePath req)
                    (token_after CTNull pages)])%list)) as Hres.
  { rewrite Hnil. unfold resolve_calls. cbn [List.length Nat.ltb Nat.leb].
    apply list_calls_fails; assumption. }
  destruct (stream_entries_spec env sched fuel req (init_world req format) eq_refl)
    as (w2 & Hstream & _).
  unfold stream_calls in Hstream. rewrite Hres in Hstream. cbn [fst] in Hstream.
  destruct (throw_rejects fuel req format e w2 Hf Ha Hu Hstream) as (H1 & H2 & H3).
  rewrite (archive_trace_no_entries fuel req format _ _ Hf Ha Hu Hres)
    by discriminate.
  rewrite listed_app, opened_app, appended_app, listed_map_EvList,
    opened_map_EvList, appended_map_EvList.
  repeat split; auto.
  intros Hin. cbn [app] in Hin.
  destruct Hin as [H|[H|[H|[H|Hin]]]]; try discriminate.
  apply in_map_iff in Hin as (x & Hx & _). discriminate.
Qed.

(** X5: the listing loop has no bound of its own.  Against a store that
    reports every page as truncated, after any number [fuel] of turns it
    has made [fuel] listing calls and is still listing: no entry has been
    opened, [finalize] has not been called, and the [catch] has not run. *)
Theorem listing_has_no_page_limit fuel req format :
  always_truncated env ->
  req_sourceFiles req = [] ->
  req_format req = inr format ->
  archiver_create env format = None ->
  upload_check env (req_params req format) = None ->
  List.length (listed (trace (archive env sched fuel req))) = fuel
  /\ opened (trace (archive env sched fuel req)) = []
  /\ ~ In EvFinalize (trace (archive env sched fuel req))
  /\ exists w, try_body env sched fuel req initial = (Running, w).
Proof.
  intros Hall Hnil Hf Ha Hu.
  destruct (list_calls_endless (sourceBucket req) (req_sourcePath req) Hall
              fuel CTNull [] 0) as (Hr & Hl).
  destruct (list_calls env fuel (sourceBucket req) (req_sourcePath req) CTNull [] 0)
    as [r lists] eqn:Hcalls.
  cbn [fst snd] in *. subst r.
  assert (resolve_calls env fuel (sourceBucket req) (req_sourcePath req)
            (req_sourceFiles req) 0 = (Running, lists)) as Hres.
  { rewrite Hnil. unfold resolve_calls. cbn [List.length Nat.ltb Nat.leb].
    exact Hcalls. }
  rewrite (archive_trace_no_entries fuel req format _ _ Hf Ha Hu Hres)
    by discriminate.
  rewrite listed_app, opened_app, listed_map_EvList, opened_map_EvList.
  split; [exact Hl|]. split; [reflexivity|]. split.
  - intros Hin. cbn [app] in Hin.
    destruct Hin as [H|[H|[H|[H|Hin]]]]; try discriminate.
    apply in_map_iff in Hin as (x & Hx & _). discriminate.
  - destruct (stream_entries_spec env sched fuel req (init_world req format) eq_refl)
      as (w2 & Hstream & _).
    unfold stream_calls in Hstream. rewrite Hres in Hstream. cbn [fst] in Hstream.
    exists w2. rewrite (try_body_streaming env sched fuel req format Hf Ha Hu).
    exact Hstream.
Qed.


(** X7: in listing mode the object whose key is the prefix itself (the
    directory marker) is never opened, whatever the store lists. *)
Theorem directory_marker_never_opened fuel req s :
  req_sourceFiles req = [] ->
  In (EvGetObject s) (trace (archive env sched fuel req)) ->
  rs_Key s <> req_sourcePath req.
Proof.
  intros Hnil Hin.
  apply archive_trace_In in Hin
    as [(format & _ & [H|[H|[H|H]]]) | Hin]; try discriminate.
  destruct (stream_calls_In env fuel req _ Hin)
    as [(props & H & _) | [(files & Hres & (j & k & Hj & Hev)) | H]];
    try discriminate.
  destruct Hev as [H | [H | (name & H & _)]]; try discriminate.
  injection H as ->. cbn [entry_stream rs_Key].
  rewrite Hnil in Hres. unfold resolve_calls in Hres.
  cbn [List.length Nat.ltb Nat.leb] in Hres.
  destruct (list_calls_Ret env _ _ _ _ _ _ _ Hres) as (pages & _ & Hfiles & _).
  assert (In k files) as Hk.
  { apply list_elem_of_In. eapply list_elem_of_lookup_2. exact Hj. }
  rewrite Hfiles in Hk. cbn [app] in Hk.
  apply in_concat in Hk as (l & Hl & Hk).
  apply in_map_iff in Hl as (page & <- & _).
  unfold page_keys in Hk. apply List.filter_In in Hk as (_ & Hk).
  intros ->. rewrite String.eqb_refl in Hk. discriminate.
Qed.

End MoreEnumeration.

(** X4 on a store that rejects the third listing call: the two pages
    already received are dropped. *)
Lemma listing_failure_rejects_witness :
  promise (archive throttled_env (Demo.drain 3 0) 5
             (Demo.request (Some "docs/") [] (JsStr "zip") ∅))
  = Rejected (EnumerationFailure "SlowDown")
  /\ List.length (listed (trace (archive throttled_env (Demo.drain 3 0) 5
                                   (Demo.request (Some "docs/") [] (JsStr "zip") ∅))))
     = 3
  /\ opened (trace (archive throttled_env (Demo.drain 3 0) 5
                      (Demo.request (Some "docs/") [] (JsStr "zip") ∅))) = [].
Proof.
  destruct (listing_failure_rejects throttled_env (Demo.drain 3 0) 5
              (Demo.request (Some "docs/") [] (JsStr "zip") ∅) "zip"
              [Demo.page ["docs/"; "docs/a.txt"] (Some "t1") true;
               Demo.page ["docs/sub/b.txt"] (Some "t2") true]
              (EnumerationFailure "SlowDown"))
    as (_ & _ & _ & Hl & Ho & _).
  - reflexivity.
  - reflexivity.
  - reflexivity.
  - reflexivity.
  - simpl. repeat split; reflexivity.
  - simpl. lia.
  - split; [vm_compute; reflexivity|]. split; [rewrite Hl; reflexivity | exact Ho].
Defined.

(** X5 on the endless store: seven turns, seven calls, nothing opened. *)
Lemma listing_has_no_page_limit_witness :
  List.length (listed (trace (archive endless_env (Demo.drain 0 0) 7
                                (Demo.request (Some "docs/") [] (JsStr "zip") ∅))))
  = 7
  /\ opened (trace (archive endless_env (Demo.drain 0 0) 7
                      (Demo.request (Some "docs/") [] (JsStr "zip") ∅))) = [].
Proof.
  destruct (listing_has_no_page_limit endless_env (Demo.drain 0 0) 7
              (Demo.request (Some "docs/") [] (JsStr "zip") ∅) "zip")
    as (Hl & Ho & _).
  - intros i props. eexists. split; reflexivity.
  - reflexivity.
  - reflexivity.
  - reflexivity.
  - reflexivity.
  - split; assumption.
Defined.


(** X7 on the demo store, whose first page lists [docs/] itself. *)
Lemma directory_marker_never_opened_witness :
  rs_Key (entry_stream "bucket" 0 "docs/a.txt") <> "docs/"
  /\ map rs_Key (opened (trace (archive Demo.env (Demo.drain 3 0) 4
                                  (Demo.request (Some "docs/") [] (JsStr "zip") ∅))))
     = ["docs/a.txt"; "docs/sub/b.txt"; "docs/c.txt"].
Proof.
  split; [|vm_compute; reflexivity].
  apply (directory_marker_never_opened Demo.env (Demo.drain 3 0) 4
           (Demo.request (Some "docs/") [] (JsStr "zip") ∅)).
  - reflexivity.
  - rewrite archive_trace. vm_compute. intuition.
Defined.

(** ** A run that goes through *)


Section Completion.

Context (env : Env) (sched : Schedule).

Lemma entries_calls_loop_calls b opts files : forall i,
  (forall j k, files !! j = Some k -> entry_throws env b opts (i + j) k = None) ->
  exists names,
    Forall2 (fun k name => name_of opts k = inr name) files names
    /\ entries_calls env b opts i files
       = (None, loop_calls b opts i (combine files names)).
Proof.
  induction files as [|k files IH]; intros i Hok.
  - exists []. split; [constructor | reflexivity].
  - pose proof (Hok 0 k eq_refl) as Hk. rewrite Nat.add_0_r in Hk.
    destruct (IH (S i)) as (names & Hnames & Hrest).
    { intros j k' Hj. replace (S i + j) with (i + S j) by lia. apply Hok. exact Hj. }
    unfold entry_throws, entry_calls in Hk.
    cbn [entries_calls]. unfold entry_calls.
    destruct (createReadStream env (entry_stream b i k)); [discriminate|].
    destruct (name_of opts k) as [e|name] eqn:En; [discriminate|].
    cbn [fst] in Hk. rewrite Hk, Hrest.
    exists (name :: names). split; [constructor; assumption|].
    reflexivity.
Qed.

(** X8: when the encoder and the upload have been set up, the
    enumeration returns and no call of the loop throws, the calls of the
    run are exactly: the encoder, the [PassThrough], the upload, the
    pipe, the listing calls, then for each resolved entry in order its
    read stream, its naming and its append, and last, once, [finalize].
    The executor returns without having settled the promise itself. *)
Theorem run_goes_through fuel req format files w1 :
  req_format req = inr format ->
  archiver_create env format = None ->
  upload_check env (req_params req format) = None ->
  resolve_sourceFiles env sched fuel (sourceBucket req) (req_sourcePath req)
    (req_sourceFiles req) (init_world req format) = (Ret files, w1) ->
  (forall j k, files !! j = Some k ->
     entry_throws env (sourceBucket req) (req_archiverOptions req) j k = None) ->
  exists names,
    Forall2 (fun k name => name_of (req_archiverOptions req) k = inr name)
      files names
    /\ trace (archive env sched fuel req)
       = ([EvArchiver format; EvPassThrough; EvUpload (req_params req format);
           EvPipe]
          ++ map EvList (listed (trace w1))
          ++ loop_calls (sourceBucket req) (req_archiverOptions req) 0
               (combine files names)
          ++ [EvFinalize])%list
    /\ (exists w, try_body env sched fuel req initial = (Ret tt, w))
    /\ (promise (executor env sched fuel req) = Pending
        \/ sink (executor env sched fuel req) = SinkCalledBack).
Proof.
  intros Hf Ha Hu Hres Hok.
  set (b := sourceBucket req) in *. set (opts := req_archiverOptions req) in *.
  destruct (resolve_sourceFiles_spec env sched fuel b (req_sourcePath req)
              (req_sourceFiles req) (init_world req format))
    as (w1' & Hrun & Htr & _).
  rewrite Hres in Hrun. injection Hrun as Hr <-.
  change (awaits (init_world req format)) with 0 in *.
  destruct (resolve_calls env fuel b (req_sourcePath req) (req_sourceFiles req) 0)
    as [r lists] eqn:Hcalls.
  cbn [fst snd] in *. subst r.
  assert (listed (trace w1) = lists) as Hlisted.
  { rewrite Htr, listed_app, listed_map_EvList. reflexivity. }
  destruct (entries_calls_loop_calls b opts files 0 Hok) as (names & Hnames & Hent).
  exists names. split; [exact Hnames|].
  split.
  { rewrite archive_trace. unfold executor_calls. rewrite Hf, Ha, Hu.
    unfold stream_calls. fold b opts. rewrite Hcalls, Hent, Hlisted. reflexivity. }
  destruct (stream_entries_spec env sched fuel req (init_world req format) eq_refl)
    as (w3 & Hstream & _).
  unfold stream_calls in Hstream. fold b opts in Hstream.
  rewrite Hcalls, Hent in Hstream. cbn [fst] in Hstream.
  pose proof (try_body_streaming env sched fuel req format Hf Ha Hu) as Hbody.
  split; [exists w3; rewrite Hbody; exact Hstream|].
  assert (settled_by_callback w3) as Hcb.
  { eapply (preserves_stream_entries env sched _ (settled_by_callback_stable env));
      [| |exact Hstream].
    - intros w H. exact H.
    - intros Hp. exfalso. apply Hp. reflexivity. }
  unfold executor. rewrite Hbody, Hstream.
  destruct (promise w3) eqn:Ep; [left; reflexivity | right | right];
    apply Hcb; congruence.
Qed.

End Completion.

(** X8 on the demo store with the upper-case policy: two explicit
    entries, seven calls after the pipe. *)
Lemma run_goes_through_witness :
  trace (archive Demo.env (Demo.drain 2 0) 0
           {| sourceBucket := "bucket"; sourcePathPrefix := Some "dir/";
              sourceFiles := Some ["sub/file.txt"; "b.txt"];
              outputFilename := None; outputFormat := JsUndefined;
              uploadOptions := None;
              archiverOptions := Some upper_case_policy |})
  = [ EvArchiver "zip"; EvPassThrough;
      EvUpload (upload_params "bucket" "dir/archive.zip" ∅); EvPipe;
      EvGetObject (entry_stream "bucket" 0 "dir/sub/file.txt");
      EvTransform "dir/sub/file.txt";
      EvAppend (entry_stream "bucket" 0 "dir/sub/file.txt") "DIR/SUB/FILE.TXT";
      EvGetObject (entry_stream "bucket" 1 "dir/b.txt");
      EvTransform "dir/b.txt";
      EvAppend (entry_stream "bucket" 1 "dir/b.txt") "DIR/B.TXT";
      EvFinalize ].
Proof.
  destruct (run_goes_through Demo.env (Demo.drain 2 0) 0
              {| sourceBucket := "bucket"; sourcePathPrefix := Some "dir/";
                 sourceFiles := Some ["sub/file.txt"; "b.txt"];
                 outputFilename := None; outputFormat := JsUndefined;
                 uploadOptions := None;
                 archiverOptions := Some upper_case_policy |}
              "zip" ["dir/sub/file.txt"; "dir/b.txt"]
              (init_world
                 {| sourceBucket := "bucket"; sourcePathPrefix := Some "dir/";
                    sourceFiles := Some ["sub/file.txt"; "b.txt"];
                    outputFilename := None; outputFormat := JsUndefined;
                    uploadOptions := None;
                    archiverOptions := Some upper_case_policy |} "zip"))
    as (names & Hnames & Ht & _).
  - reflexivity.
  - reflexivity.
  - reflexivity.
  - reflexivity.
  - intros [|[|j]] k; [intros [= <-]; reflexivity | intros [= <-]; reflexivity
                      | intros H; discriminate H].
  - rewrite Ht.
    inversion Hnames as [|? n1 ? ns1 Hn1 Hrest]; subst.
    inversion Hrest as [|? n2 ? ns2 Hn2 Hnil]; subst.
    inversion Hnil; subst.
    injection Hn1 as <-. injection Hn2 as <-.
    reflexivity.
Defined.

(** ** What has happened when the executor returns, and who settles *)


Section Scheduled.

Context (env : Env) (sched : Schedule).
Context (I : World -> Prop).
Context (Hlist : forall props w, I w -> I (log (EvList props) w)).
Context (Hawait : forall w, I w -> I (count_await w)).
Context (Hact : forall a w, scheduled sched a -> I w -> I (act env a w)).

Lemma scheduled_run_actions l :
  (forall a, In a l -> scheduled sched a) ->
  forall w, I w -> I (run_actions env l w).
Proof.
  induction l as [|a l IH]; intros Hl w Hw; [exact Hw|].
  rewrite run_actions_cons. apply IH.
  - intros a' Ha'. apply Hl. right. exact Ha'.
  - apply Hact; [apply Hl; left; reflexivity | exact Hw].
Qed.

Lemma scheduled_await props : preserves I (await_listObjectsV2 env sched props).
Proof.
  intros w r w' Hw. unfold await_listObjectsV2.
  assert (I (run_actions env (during_await sched (awaits w))
               (count_await (log (EvList props) w)))) as Hw'.
  { apply scheduled_run_actions.
    - intros a Ha. right. exists (awaits w). exact Ha.
    - apply Hawait, Hlist. exact Hw. }
  destruct (listObjectsV2 env (awaits w) props); intros [= _ <-]; exact Hw'.
Qed.

Lemma scheduled_resolve fuel b p files :
  preserves I (resolve_sourceFiles env sched fuel b p files).
Proof.
  unfold resolve_sourceFiles. destruct (Nat.ltb 0 (List.length files)).
  { intros w r w' Hw [= _ <-]. exact Hw. }
  generalize CTNull. generalize files as acc.
  induction fuel as [|fuel IH]; intros acc tok.
  - intros w r w' Hw [= _ <-]. exact Hw.
  - cbn [list_loop]. intros w r w' Hw. unfold bind.
    destruct (await_listObjectsV2 env sched (s3ObjectsProps b p tok) w)
      as [[page|e|] w1] eqn:E1;
      pose proof (scheduled_await _ _ _ _ Hw E1) as Hw1.
    2,3: intros [= _ <-]; exact Hw1.
    destruct (negb (IsTruncated page)).
    + intros [= _ <-]. exact Hw1.
    + intros Hrest. eapply IH; [exact Hw1 | exact Hrest].
Qed.

Lemma scheduled_stream_entries fuel req :
  sync_stable I ->
  (forall w, I w -> I (set_finalized w)) ->
  preserves I (stream_entries env sched fuel req).
Proof.
  intros Hsync Hfin. unfold stream_entries.
  intros w r w' Hw. unfold bind at 1.
  destruct (resolve_sourceFiles env sched fuel (sourceBucket req)
              (req_sourcePath req) (req_sourceFiles req) w)
    as [[files|e|] w1] eqn:E1;
    pose proof (scheduled_resolve _ _ _ _ _ _ _ Hw E1) as Hw1.
  2,3: intros [= _ <-]; exact Hw1.
  clear E1. revert w1 r w' Hw1.
  change (preserves I
            (for_of files 0
               (append_entry env (sourceBucket req) (req_archiverOptions req)) ;;
             call EvFinalize None ;; modify set_finalized)).
  apply preserves_bind; [apply preserves_for_of; exact Hsync|]. intros _.
  apply preserves_bind; [apply preserves_call; exact Hsync|]. intros _.
  apply preserves_modify. exact Hfin.
Qed.

End Scheduled.

Section AtReturn.

Context (env : Env) (sched : Schedule).

Lemma nothing_queued_act a w : nothing_queued w -> nothing_queued (act env a w).
Proof.
  intros H. pose proof H as (Ha & Hq & Hf & Hs & Hp & Hfl).
  destruct a; unfold act; rewrite ?Hq, ?Hf, ?Hs; try exact H.
  - destruct (sink w) as [|params|]; try exact H.
    destruct (params !! "Body") as [[v|[|id]]|]; try exact H.
    + destruct (body_size env (PVal v)); try exact H.
      destruct (sink_received w + n <=? _)%N; exact H.
    + destruct (piped w && (n <=? in_flight w)%N) eqn:Eg; try exact H.
      apply andb_prop in Eg as [_ Hle]. apply N.leb_le in Hle.
      unfold nothing_queued; simpl. repeat split; auto. lia.
    + destruct (body_size env (PStream (ForeignStream id))); try exact H.
      destruct (sink_received w + n <=? _)%N; exact H.
  - destruct (sink w) as [|params|]; try exact H.
    destruct (body_complete env params w); try exact H.
    unfold upload_callback, resolve, settle; simpl.
    destruct (promise w); exact H.
  - destruct (sink w) as [|params|]; try exact H.
    unfold upload_callback, reject, settle; simpl.
    destruct (promise w); exact H.
Qed.

Lemma nothing_queued_resolve fuel b p files :
  preserves nothing_queued (resolve_sourceFiles env sched fuel b p files).
Proof.
  apply scheduled_resolve.
  - intros props w (Ha & H). split; [|exact H].
    cbn [trace log]. rewrite appended_app, Ha. reflexivity.
  - intros w H. exact H.
  - intros a w _. apply nothing_queued_act.
Qed.

(** One turn of the loop: the entry is queued when its three calls
    return, and only the call of [append] itself can leave an append in
    the trace without an entry in the queue. *)
Lemma append_entry_queue b opts i k w r w' :
  append_entry env b opts i k w = (r, w') ->
  exists added last,
    enc_queue w' = (enc_queue w ++ added)%list
    /\ appended (trace w') = (appended (trace w) ++ added ++ last)%list
    /\ List.length last <= 1 /\ (r = Ret tt -> last = [])
    /\ r <> Running
    /\ enc_pointer w' = enc_pointer w /\ in_flight w' = in_flight w
    /\ enc_status w' = enc_status w /\ enc_finalized w' = enc_finalized w.
Proof.
  unfold append_entry, bind, call, s3FileName_of, modify, ret.
  destruct (createReadStream env _).
  { intros [= <- <-]. exists [], []. cbn [trace log enc_queue].
    rewrite appended_app, ?app_nil_r. repeat split; auto; discriminate. }
  destruct (s3FileNameTransform opts) as [f|].
  - destruct (f k) as [e'|name].
    { intros [= <- <-]. exists [], []. cbn [trace log enc_queue].
      rewrite !appended_app, ?app_nil_r. repeat split; auto; discriminate. }
    destruct (append_check env _ name).
    + intros [= <- <-]. eexists [], [_]. cbn [trace log enc_queue].
      rewrite !appended_app, ?app_nil_r. cbn [appended flat_map app].
      rewrite ?app_nil_r. repeat split; auto; discriminate.
    + intros [= <- <-]. eexists [_], []. simpl.
      rewrite !appended_app, ?N.add_0_r. cbn [appended flat_map app].
      rewrite ?app_nil_r. repeat split; auto; discriminate.
  - destruct (append_check env _ _).
    + intros [= <- <-]. eexists [], [_]. cbn [trace log enc_queue].
      rewrite !appended_app, ?app_nil_r. cbn [appended flat_map app].
      rewrite ?app_nil_r. repeat split; auto; discriminate.
    + intros [= <- <-]. eexists [_], []. simpl.
      rewrite !appended_app, ?N.add_0_r. cbn [appended flat_map app].
      rewrite ?app_nil_r. repeat split; auto; discriminate.
Qed.

(** The loop queues what it appends and leaves the encoder alone. *)
Lemma for_of_queue b opts files : forall i w r w',
  for_of files i (append_entry env b opts) w = (r, w') ->
  exists added last,
    enc_queue w' = (enc_queue w ++ added)%list
    /\ appended (trace w') = (appended (trace w) ++ added ++ last)%list
    /\ List.length last <= 1 /\ (r = Ret tt -> last = [])
    /\ r <> Running
    /\ enc_pointer w' = enc_pointer w /\ in_flight w' = in_flight w
    /\ enc_status w' = enc_status w /\ enc_finalized w' = enc_finalized w.
Proof.
  induction files as [|k files IH]; intros i w r w'; cbn [for_of].
  - intros [= <- <-]. exists [], []. rewrite ?app_nil_r.
    repeat split; auto; discriminate.
  - unfold bind at 1.
    destruct (append_entry env b opts i k w) as [[[]|e|] w1] eqn:Ek;
      destruct (append_entry_queue _ _ _ _ _ _ _ Ek)
        as (a1 & l1 & Hq1 & Ha1 & Hlen1 & Hret1 & Hrun1 & Hp1 & Hf1 & Hs1 & Hfin1).
    + intros Hrest.
      destruct (IH _ _ _ _ Hrest)
        as (a2 & l2 & Hq2 & Ha2 & Hlen2 & Hret2 & Hrun2 & Hp2 & Hf2 & Hs2 & Hfin2).
      rewrite (Hret1 eq_refl), app_nil_r in Ha1.
      exists (a1 ++ a2)%list, l2.
      rewrite Hq2, Hq1, Ha2, Ha1, <- !app_assoc.
      repeat split; auto; congruence.
    + intros [= <- <-]. exists a1, l1. repeat split; auto; discriminate.
    + congruence.
Qed.

(** What the [try] body leaves behind, whatever its outcome. *)
Lemma try_body_queue fuel req r w :
  try_body env sched fuel req initial = (r, w) ->
  enc_pointer w = 0%N /\ in_flight w = 0%N /\ enc_status w = EncOpen
  /\ exists last,
       appended (trace w) = (enc_queue w ++ last)%list
       /\ List.length last <= 1
       /\ (r = Ret tt \/ r = Running -> last = []).
Proof.
  rewrite try_body_unfold, format_of_default.
  destruct (req_format req) as [e0|format] eqn:Ef.
  { intros [= <- <-]. repeat split. exists []. repeat split; auto. }
  destruct (archiver_create env format) as [e|] eqn:Ea.
  { unfold bind, ret, call. rewrite Ea. intros [= <- <-].
    repeat split. exists []. repeat split; auto. }
  destruct (upload_check env (req_params req format)) as [e|] eqn:Eu.
  { unfold bind, ret, call. rewrite Ea, Eu. intros [= <- <-].
    repeat split. exists []. repeat split; auto. }
  replace ((let* format0 := ret format in _) initial)
    with (stream_entries env sched fuel req (init_world req format)).
  2:{ unfold bind at 1, ret, call, modify. cbn beta iota.
      unfold bind at 1 2 3 4 5 6. rewrite Ea, Eu. reflexivity. }
  assert (nothing_queued (init_world req format)) as H0 by (repeat split).
  unfold stream_entries, bind at 1.
  destruct (resolve_sourceFiles env sched fuel (sourceBucket req)
              (req_sourcePath req) (req_sourceFiles req) (init_world req format))
    as [[files|e|] w1] eqn:E1;
    destruct (nothing_queued_resolve _ _ _ _ _ _ _ H0 E1)
      as (Ha & Hq & Hfin & Hs & Hp & Hf).
  2,3: intros [= <- <-]; repeat split; auto; exists []; rewrite Ha, Hq;
       repeat split; auto.
  unfold bind at 1.
  destruct (for_of files 0 _ w1) as [[[]|e|] w2] eqn:E2;
    destruct (for_of_queue _ _ _ _ _ _ _ E2)
      as (added & last & Hq2 & Ha2 & Hlen & Hret & Hrun & Hp2 & Hf2 & Hs2 & _);
    rewrite Hq in Hq2; rewrite Ha in Ha2; cbn [app] in Hq2, Ha2.
  - unfold bind, call, modify. intros [= <- <-]. cbn.
    repeat split; try congruence.
    exists []. rewrite appended_app, Ha2, Hq2, (Hret eq_refl). cbn.
    rewrite ?app_nil_r. repeat split; auto.
  - intros [= <- <-]. repeat split; try congruence.
    exists last. rewrite Ha2, Hq2. repeat split; auto.
    intros [H|H]; discriminate H.
  - congruence.
Qed.

(** X9: no entry is encoded while the program runs.  When the executor
    returns, the encoder has emitted no byte and has not ended, and
    every stream the loop appended is still in its queue, in the order
    of the appends: all the read streams are opened before the first one
    is consumed.  Only an [append] that threw is in the trace without
    being queued, and then the promise is no longer pending. *)
Theorem entries_wait_for_return fuel req :
  enc_pointer (executor env sched fuel req) = 0%N
  /\ in_flight (executor env sched fuel req) = 0%N
  /\ enc_status (executor env sched fuel req) = EncOpen
  /\ exists last,
       appended (trace (executor env sched fuel req))
       = (enc_queue (executor env sched fuel req) ++ last)%list
       /\ List.length last <= 1
       /\ (promise (executor env sched fuel req) = Pending -> last = []).
Proof.
  unfold executor.
  destruct (try_body env sched fuel req initial) as [r w] eqn:Eb.
  destruct (try_body_queue _ _ _ _ Eb) as (Hp & Hf & Hs & last & Ha & Hlen & Hlast).
  destruct r as [[]|e|].
  - repeat split; auto. exists last. repeat split; auto.
  - unfold reject, settle. destruct (promise w) eqn:Ep; cbn.
    + repeat split; auto. exists last. repeat split; auto; discriminate.
    + repeat split; auto. exists last. repeat split; auto; congruence.
    + repeat split; auto. exists last. repeat split; auto; congruence.
  - repeat split; auto. exists last. repeat split; auto.
Qed.

(** What one step of the event loop does to a pending promise: only
    the callback of the upload settles it. *)
Lemma act_promise a w :
  promise w = Pending ->
  promise (act env a w) = Pending
  \/ (sink (act env a w) = SinkCalledBack
      /\ ((exists data,
             a = SinkDone data
             /\ promise (act env a w)
                = Resolved {| s3Bucket := data_Bucket data;
                              fileKey := data_Key data;
                              fileSize := enc_pointer w |})
          \/ (exists e, a = SinkFail e /\ promise (act env a w) = Rejected e))).
Proof.
  intros Ep. destruct a; unfold act.
  - left. destruct (enc_status w), (enc_queue w) as [|[s name] q]; try exact Ep.
    destruct (read_stream env s); exact Ep.
  - left. destruct (enc_status w), (enc_queue w), (enc_finalized w); exact Ep.
  - left. destruct (sink w) as [|params|]; try exact Ep.
    destruct (params !! "Body") as [[v|[|id]]|]; try exact Ep.
    + destruct (body_size env (PVal v)); try exact Ep.
      destruct (sink_received w + n <=? _)%N; exact Ep.
    + destruct (piped w && (n <=? in_flight w)%N); exact Ep.
    + destruct (body_size env (PStream (ForeignStream id))); try exact Ep.
      destruct (sink_received w + n <=? _)%N; exact Ep.
  - destruct (sink w) as [|params|]; [left; exact Ep | | left; exact Ep].
    destruct (body_complete env params w); [|left; exact Ep].
    right. unfold upload_callback, resolve, settle. cbn. rewrite Ep. cbn.
    split; [reflexivity|]. left. exists data. split; reflexivity.
  - destruct (sink w) as [|params|]; [left; exact Ep | | left; exact Ep].
    right. unfold upload_callback, reject, settle. cbn. rewrite Ep. cbn.
    split; [reflexivity|]. right. exists e. split; reflexivity.
Qed.

Lemma act_called_back a w :
  sink w = SinkCalledBack -> sink (act env a w) = SinkCalledBack.
Proof.
  intros Hs. destruct a; unfold act; rewrite ?Hs; try reflexivity.
  - destruct (enc_status w), (enc_queue w) as [|[s name] q]; try exact Hs.
    destruct (read_stream env s); exact Hs.
  - destruct (enc_status w), (enc_queue w), (enc_finalized w); exact Hs.
Qed.

Lemma settled_from_act thrown a w :
  scheduled sched a ->
  settled_from sched thrown w -> settled_from sched thrown (act env a w).
Proof.
  intros Ha H. unfold settled_from in *.
  destruct (promise w) as [|r|e] eqn:Ep.
  - destruct (act_promise a w Ep)
      as [-> | (Hs & [(data & -> & ->) | (e & -> & ->)])].
    + exact I.
    + split; [exact Hs|]. exists data. repeat split. exact Ha.
    + right. split; [exact Hs | exact Ha].
  - rewrite act_settled by congruence. rewrite Ep.
    destruct H as (Hs & H). split; [apply act_called_back; exact Hs | exact H].
  - rewrite act_settled by congruence. rewrite Ep.
    destruct H as [H | (Hs & H)]; [left; exact H|].
    right. split; [apply act_called_back; exact Hs | exact H].
Qed.

(** X10: the promise is settled by the callback of the upload or by the
    [catch], and by nothing else.  A result carries the bucket and the
    key of the upload's own response, not those of the request, and the
    upload has called back; a rejection carries the error the upload
    called back with, or the error thrown inside the [try]. *)
Theorem settled_by_callback_or_catch fuel req :
  (forall r, promise (archive env sched fuel req) = Resolved r ->
     sink (archive env sched fuel req) = SinkCalledBack
     /\ exists data,
          scheduled sched (SinkDone data)
          /\ s3Bucket r = data_Bucket data /\ fileKey r = data_Key data)
  /\ (forall e, promise (archive env sched fuel req) = Rejected e ->
        (exists w, try_body env sched fuel req initial = (Throw e, w))
        \/ (sink (archive env sched fuel req) = SinkCalledBack
            /\ scheduled sched (SinkFail e))).
Proof.
  set (thrown := fun e =>
         exists w, try_body env sched fuel req initial = (Throw e, w)).
  enough (settled_from sched thrown (archive env sched fuel req)) as H.
  { unfold settled_from in H.
    destruct (promise (archive env sched fuel req)) as [|r|e].
    - split; intros ?; discriminate.
    - split; [intros r' [= <-]; exact H | intros ?; discriminate].
    - split; [intros ?; discriminate | intros e' [= <-]; exact H]. }
  unfold archive.
  apply (scheduled_run_actions env sched (settled_from sched thrown)).
  { intros a w. apply settled_from_act. }
  { intros a Ha. left. exact Ha. }
  unfold executor.
  destruct (try_body env sched fuel req initial) as [r w] eqn:Eb.
  assert (settled_from sched thrown w) as Hw.
  { revert Eb. rewrite try_body_unfold, format_of_default.
    destruct (req_format req) as [e0|format] eqn:Ef.
    { intros [= <- <-]. exact I. }
    destruct (archiver_create env format) as [e|] eqn:Ea.
    { unfold bind, ret, call. rewrite Ea. intros [= <- <-]. exact I. }
    destruct (upload_check env (req_params req format)) as [e|] eqn:Eu.
    { unfold bind, ret, call. rewrite Ea, Eu. intros [= <- <-]. exact I. }
    replace ((let* format0 := ret format in _) initial)
      with (stream_entries env sched fuel req (init_world req format)).
    2:{ unfold bind at 1, ret, call, modify. cbn beta iota.
        unfold bind at 1 2 3 4 5 6. rewrite Ea, Eu. reflexivity. }
    intros Hs.
    eapply (scheduled_stream_entries env sched (settled_from sched thrown));
      [ | | | | | | exact Hs].
    - intros props w0 H. exact H.
    - intros w0 H. exact H.
    - intros a w0. apply settled_from_act.
    - split; [intros ev w0 H | intros s name w0 H]; exact H.
    - intros w0 H. exact H.
    - exact I. }
  destruct r as [[]|e|]; try exact Hw.
  destruct (promise w) eqn:Ep.
  - unfold reject, settle, settled_from. rewrite Ep. cbn.
    left. exists w. reflexivity.
  - unfold reject. rewrite settle_settled by congruence. exact Hw.
  - unfold reject. rewrite settle_settled by congruence. exact Hw.
Qed.

End AtReturn.

(** X9 on two explicit entries: when the executor returns, both are
    queued and no byte has been emitted. *)
Lemma entries_wait_for_return_witness :
  enc_pointer (executor Demo.env (Demo.drain 2 242) 0
                 (Demo.request None ["a.txt"; "b.txt"] (JsStr "zip") ∅)) = 0%N
  /\ enc_queue (executor Demo.env (Demo.drain 2 242) 0
                  (Demo.request None ["a.txt"; "b.txt"] (JsStr "zip") ∅))
     = [ (entry_stream "bucket" 0 "a.txt", "a.txt");
         (entry_stream "bucket" 1 "b.txt", "b.txt") ].
Proof.
  destruct (entries_wait_for_return Demo.env (Demo.drain 2 242) 0
              (Demo.request None ["a.txt"; "b.txt"] (JsStr "zip") ∅))
    as (Hp & _ & _ & last & Ha & _ & Hl).
  split; [exact Hp|].
  rewrite (Hl eq_refl), app_nil_r in Ha. rewrite <- Ha.
  rewrite executor_trace. vm_compute. reflexivity.
Defined.

(** X10 on a run whose upload answers with a bucket and a key of its
    own: the result carries them. *)
Lemma settled_by_callback_or_catch_witness :
  sink (archive Demo.env
          {| during_await := fun _ => [];
             after_return :=
               [EncoderEntry; EncoderEnd; SinkRead 132;
                SinkDone {| data_Bucket := "replica"; data_Key := "stored.zip" |}] |}
          0 (Demo.request None ["a.txt"] (JsStr "zip") ∅)) = SinkCalledBack
  /\ exists data,
       scheduled
         {| during_await := fun _ => [];
            after_return :=
              [EncoderEntry; EncoderEnd; SinkRead 132;
               SinkDone {| data_Bucket := "replica"; data_Key := "stored.zip" |}] |}
         (SinkDone data)
       /\ "replica" = data_Bucket data /\ "stored.zip" = data_Key data.
Proof.
  apply (proj1 (settled_by_callback_or_catch Demo.env
                  {| during_await := fun _ => [];
                     after_return :=
                       [EncoderEntry; EncoderEnd; SinkRead 132;
                        SinkDone {| data_Bucket := "replica";
                                    data_Key := "stored.zip" |}] |}
                  0 (Demo.request None ["a.txt"] (JsStr "zip") ∅))
           {| s3Bucket := "replica"; fileKey := "stored.zip"; fileSize := 132 |}).
  vm_compute. reflexivity.
Defined.

(** ** Names, upload parameters and listing requests *)


Section MoreNames.

Lemma has_slash_append pre post : has_slash (pre +:+ String "/" post).
Proof.
  unfold has_slash. induction pre as [|c pre IH]; [left; reflexivity|].
  right. exact IH.
Qed.

(** A string is cut at its last slash in one way only. *)
Lemma last_slash_unique dir : forall pre base post,
  ~ has_slash base -> ~ has_slash post ->
  dir +:+ String "/" base = pre +:+ String "/" post ->
  base = post.
Proof.
  induction dir as [|c dir IH]; intros [|c' pre] base post Hb Hp; cbn.
  - intros [= ->]. reflexivity.
  - intros [= <- ->]. exfalso. apply Hb. apply has_slash_append.
  - intros [= -> <-]. exfalso. apply Hp. apply has_slash_append.
  - intros [= <- H]. eapply IH; eauto.
Qed.

Lemma default_name_joined dir base :
  ~ has_slash base ->
  substring (dir +:+ "/" +:+ base) (lastIndexOf (dir +:+ "/" +:+ base) "/" + 1)
  = base.
Proof.
  intros Hb.
  destruct (default_name_spec (dir +:+ "/" +:+ base))
    as (Hno & [(Hk & _) | (dir' & Hk)]).
  - exfalso. apply Hk. apply has_slash_append.
  - symmetry. eapply last_slash_unique; [exact Hb | exact Hno | exact Hk].
Qed.

End MoreNames.

Section MoreParams.

Context (env : Env) (sched : Schedule).

(** X11: without a naming callback an entry is named by what follows the
    last slash of its key, whatever precedes it: the directories of the
    key are dropped, so entries of different directories with the same
    file name get the same name, and a key that ends with a slash gets
    the empty name. *)
Theorem default_names_flatten fuel req dir base :
  ~ has_slash base ->
  s3FileName_of {| s3FileNameTransform := None |} (dir +:+ "/" +:+ base)
  = ret base
  /\ (s3FileNameTransform (req_archiverOptions req) = None ->
      forall s name,
        In (EvAppend s name) (trace (archive env sched fuel req)) ->
        rs_Key s = dir +:+ "/" +:+ base -> name = base).
Proof.
  intros Hb. split.
  { unfold s3FileName_of. cbn [s3FileNameTransform].
    rewrite default_name_joined by exact Hb. reflexivity. }
  intros Hnone s name Hin Hkey.
  destruct (archive_trace_In env sched fuel req _ Hin)
    as [(format & _ & [H|[H|[H|H]]]) | Hs]; try discriminate.
  destruct (stream_calls_In env fuel req _ Hs)
    as [(props & H & _) | [(files & _ & Hev) | H]]; try discriminate.
  destruct Hev as (j & k & _ & [H | [H | (name' & H & Hname)]]); try discriminate.
  injection H as -> ->. cbn [rs_Key entry_stream] in Hkey. subst k.
  unfold name_of in Hname. rewrite Hnone in Hname. injection Hname as <-.
  apply default_name_joined. exact Hb.
Qed.

Lemma uploads_app t1 t2 : uploads (t1 ++ t2) = (uploads t1 ++ uploads t2)%list.
Proof. apply flat_map_app. Qed.

Lemma uploads_none t :
  (forall params, ~ In (EvUpload params) t) -> uploads t = [].
Proof.
  induction t as [|ev t IH]; intros H; [reflexivity|].
  cbn [uploads flat_map]. fold (uploads t). rewrite IH.
  - destruct ev; try reflexivity. exfalso. apply (H params). left. reflexivity.
  - intros params Hin. apply (H params). right. exact Hin.
Qed.

(** X12: [s3.upload] is called at most once, and every option of the
    caller reaches it unchanged: an option named [Bucket], [Key] or
    [Body] replaces the value the program computed, any other option is
    added, and nothing else is passed.  Without a [Key] option the
    object is written under the source prefix, as
    [sourcePath + outputFilename + "." + format]. *)
Theorem upload_options_win fuel req :
  List.length (uploads (trace (archive env sched fuel req))) <= 1
  /\ forall params,
       In (EvUpload params) (trace (archive env sched fuel req)) ->
       (forall x v, req_uploadOptions req !! x = Some v -> params !! x = Some v)
       /\ (forall x, req_uploadOptions req !! x = None ->
             x <> "Bucket" -> x <> "Key" -> x <> "Body" -> params !! x = None)
       /\ exists format,
            req_format req = inr format
            /\ params !! "Key"
               = Some (default
                         (PVal (JsStr (req_sourcePath req
                                       +:+ req_outputFilename req
                                       +:+ "." +:+ format)))
                         (req_uploadOptions req !! "Key")).
Proof.
  split.
  { rewrite archive_trace.
    destruct (executor_calls_shape env fuel req)
      as [-> | (format & Hf & [-> | [-> | ->]])]; cbn; try lia.
    rewrite uploads_none; [cbn; lia|].
    intros params. apply stream_calls_no_upload. }
  intros params Hin.
  assert (exists format,
            req_format req = inr format /\ params = req_params req format)
    as (format & Hf & ->).
  { destruct (archive_trace_In env sched fuel req _ Hin)
      as [(format & Hf & [H|[H|[H|H]]]) | Hs]; try discriminate.
    - exists format. split; [exact Hf | congruence].
    - exfalso. eapply stream_calls_no_upload; exact Hs. }
  split; [|split].
  - intros x v Hx. unfold req_params, upload_params.
    apply lookup_union_Some_l. exact Hx.
  - intros x Hx H1 H2 H3. unfold req_params.
    rewrite upload_params_lookup_other by assumption. exact Hx.
  - exists format. split; [exact Hf|].
    unfold req_params. rewrite upload_params_lookup_Key. reflexivity.
Qed.

(** X13: every listing call asks for the keys under the source prefix,
    and for all the keys of the bucket when the prefix is omitted or
    empty: then the request carries no [Prefix] at all. *)
Theorem listing_prefix fuel req props :
  In (EvList props) (trace (archive env sched fuel req)) ->
  (sourcePathPrefix req = None \/ sourcePathPrefix req = Some EmptyString ->
   lp_Prefix props = None)
  /\ (forall p, sourcePathPrefix req = Some p -> p <> EmptyString ->
        lp_Prefix props = Some p)
  /\ req_sourceFiles req = [].
Proof.
  intros Hin.
  destruct (archive_trace_In env sched fuel req _ Hin)
    as [(format & _ & [H|[H|[H|H]]]) | Hs]; try discriminate.
  destruct (stream_calls_In env fuel req _ Hs)
    as [(props' & H & Hp) | [(files & _ & Hev) | H]]; try discriminate.
  2:{ destruct Hev as (j & k & _ & [H | [H | (name' & H & _)]]); discriminate. }
  injection H as <-. unfold resolve_calls in Hp.
  destruct (req_sourceFiles req) as [|f fs] eqn:Efiles; [|destruct Hp].
  cbn in Hp. apply list_calls_props in Hp as (_ & Hp). rewrite Hp.
  unfold req_sourcePath. split; [|split; [|reflexivity]].
  - intros [-> | ->]; reflexivity.
  - intros p -> Hne. destruct p; [congruence | reflexivity].
Qed.



End MoreParams.

(** X11 on a key that ends with a slash: its entry gets the empty
    name. *)
Lemma default_names_flatten_witness :
  ~ has_slash EmptyString
  /\ s3FileName_of {| s3FileNameTransform := None |}
       ("docs/sub" +:+ "/" +:+ EmptyString)
     = ret EmptyString.
Proof.
  assert (~ has_slash EmptyString) as H by (intros []).
  split; [exact H|].
  apply (default_names_flatten Demo.env (Demo.drain 0 0) 0
           (Demo.request None [] (JsStr "zip") ∅) "docs/sub" EmptyString H).
Defined.

(** X12 on a run whose caller sets the storage class and the key. *)
Lemma upload_options_win_witness :
  List.length
    (uploads
       (trace (archive Demo.env (Demo.drain 1 132) 0
                 (Demo.request (Some "docs/") ["a.txt"] (JsStr "tar")
                    {["StorageClass" := PVal (JsStr "GLACIER")]})))) <= 1
  /\ req_params (Demo.request (Some "docs/") ["a.txt"] (JsStr "tar")
                   {["StorageClass" := PVal (JsStr "GLACIER")]}) "tar"
       !! "StorageClass" = Some (PVal (JsStr "GLACIER"))
  /\ req_params (Demo.request (Some "docs/") ["a.txt"] (JsStr "tar")
                   {["StorageClass" := PVal (JsStr "GLACIER")]}) "tar"
       !! "ACL" = None.
Proof.
  destruct (upload_options_win Demo.env (Demo.drain 1 132) 0
              (Demo.request (Some "docs/") ["a.txt"] (JsStr "tar")
                 {["StorageClass" := PVal (JsStr "GLACIER")]}))
    as (Hone & Hparams).
  split; [exact Hone|].
  destruct (Hparams
              (req_params (Demo.request (Some "docs/") ["a.txt"] (JsStr "tar")
                             {["StorageClass" := PVal (JsStr "GLACIER")]}) "tar"))
    as (Hpass & Hnone & _).
  { rewrite archive_trace. right. right. left. reflexivity. }
  split.
  - apply Hpass. vm_compute. reflexivity.
  - apply Hnone; [vm_compute; reflexivity | discriminate..].
Defined.

(** X13 on the demo store listed without a prefix. *)
Lemma listing_prefix_witness :
  lp_Prefix (s3ObjectsProps "bucket" EmptyString CTNull) = None
  /\ req_sourceFiles (Demo.request None [] (JsStr "zip") ∅) = [].
Proof.
  destruct (listing_prefix Demo.env (Demo.drain 0 0) 1
              (Demo.request None [] (JsStr "zip") ∅)
              (s3ObjectsProps "bucket" EmptyString CTNull))
    as (Hnone & _ & Hfiles).
  - rewrite archive_trace. right. right. right. right. left. reflexivity.
  - split; [apply Hnone; left; reflexivity | exact Hfiles].
Defined.


(** ** A run that resolves *)


Section Resolves.

Context (env : Env) (sched : Schedule).

Lemma upload_waiting_sync params : sync_stable (upload_waiting params).
Proof. split; [intros ev w H | intros s name w H]; exact H. Qed.

(** While nothing is queued, a step other than a failure of the upload
    changes nothing the result depends on. *)
Lemma waiting_act params a w :
  params !! "Body" = Some (PStream OutputStream) ->
  (forall e, a <> SinkFail e) ->
  nothing_queued w /\ upload_waiting params w ->
  nothing_queued (act env a w) /\ upload_waiting params (act env a w).
Proof.
  intros Hbody Ha (Hn & Hu). split; [apply nothing_queued_act; exact Hn|].
  destruct Hn as (_ & Hq & Hf & Hs & _ & Hfl).
  pose proof Hu as (Hp & Hsink & Hpiped & Hrecv).
  destruct a; unfold act; rewrite ?Hq, ?Hf, ?Hs, ?Hsink; try exact Hu.
  - rewrite Hbody, Hpiped, Hfl. cbn [andb].
    destruct (n <=? 0)%N eqn:En; [|exact Hu].
    apply N.leb_le in En. unfold upload_waiting; cbn. repeat split; auto. lia.
  - unfold body_complete. rewrite Hbody, Hs. exact Hu.
  - exfalso. apply (Ha e). reflexivity.
Qed.

Lemma stream_entries_ready fuel req format w3 :
  req_params req format !! "Body" = Some (PStream OutputStream) ->
  (forall e, ~ scheduled sched (SinkFail e)) ->
  stream_entries env sched fuel req (init_world req format) = (Ret tt, w3) ->
  upload_waiting (req_params req format) w3
  /\ enc_queue w3 = appended (trace w3) /\ enc_finalized w3 = true
  /\ enc_status w3 = EncOpen /\ enc_pointer w3 = 0%N /\ in_flight w3 = 0%N.
Proof.
  intros Hbody Hnofail. set (params := req_params req format).
  assert (nothing_queued (init_world req format)
          /\ upload_waiting params (init_world req format)) as H0.
  { split; repeat split. }
  unfold stream_entries, bind at 1.
  destruct (resolve_sourceFiles env sched fuel (sourceBucket req)
              (req_sourcePath req) (req_sourceFiles req) (init_world req format))
    as [[files|e|] w1] eqn:E1; try discriminate.
  assert (nothing_queued w1 /\ upload_waiting params w1) as (Hn1 & Hu1).
  { eapply (scheduled_resolve env sched
              (fun w => nothing_queued w /\ upload_waiting params w));
      [ | | | exact H0 | exact E1].
    - intros props w ((Ha & Hn) & Hu). split; [|exact Hu]. split; [|exact Hn].
      cbn [trace log]. rewrite appended_app, Ha. reflexivity.
    - intros w H. exact H.
    - intros a w Hsched. apply waiting_act; [exact Hbody|].
      intros e ->. exact (Hnofail e Hsched). }
  destruct Hn1 as (Ha & Hq & Hfin & Hs & Hp & Hf).
  unfold bind at 1.
  destruct (for_of files 0 _ w1) as [[[]|e|] w2] eqn:E2; try discriminate.
  destruct (for_of_queue _ _ _ _ _ _ _ _ E2)
    as (added & last & Hq2 & Ha2 & _ & Hret & _ & Hp2 & Hf2 & Hs2 & Hfin2).
  rewrite Hq in Hq2. rewrite Ha, (Hret eq_refl), app_nil_r in Ha2.
  cbn [app] in Hq2, Ha2.
  pose proof (preserves_for_of env _ (upload_waiting_sync params)
                _ _ _ _ _ _ _ Hu1 E2) as Hu2.
  unfold bind, call, modify. intros [= <-].
  split; [exact Hu2|]. cbn.
  rewrite appended_app, Ha2, Hq2. cbn. rewrite app_nil_r.
  repeat split; congruence.
Qed.

(** The encoder drains its queue, one entry per step. *)
Lemma drain_queue : forall q w total,
  enc_queue w = q -> enc_status w = EncOpen ->
  encoded_size env q = Some total ->
  enc_queue (run_actions env (repeat EncoderEntry (List.length q)) w) = []
  /\ enc_status (run_actions env (repeat EncoderEntry (List.length q)) w) = EncOpen
  /\ (enc_pointer (run_actions env (repeat EncoderEntry (List.length q)) w)
      + trailer_bytes env = enc_pointer w + total)%N
  /\ (in_flight (run_actions env (repeat EncoderEntry (List.length q)) w)
      + trailer_bytes env = in_flight w + total)%N
  /\ promise (run_actions env (repeat EncoderEntry (List.length q)) w) = promise w
  /\ sink (run_actions env (repeat EncoderEntry (List.length q)) w) = sink w
  /\ piped (run_actions env (repeat EncoderEntry (List.length q)) w) = piped w
  /\ sink_received (run_actions env (repeat EncoderEntry (List.length q)) w)
     = sink_received w
  /\ enc_finalized (run_actions env (repeat EncoderEntry (List.length q)) w)
     = enc_finalized w.
Proof.
  induction q as [|[s name] q IH]; intros w total Hq Hs Hsize.
  - injection Hsize as <-. cbn. repeat split; auto.
  - cbn [encoded_size] in Hsize.
    destruct (read_stream env s) as [e|size] eqn:Er; [discriminate|].
    destruct (encoded_size env q) as [rest|] eqn:Erest; [|discriminate].
    injection Hsize as <-.
    cbn [List.length repeat]. rewrite run_actions_cons.
    assert (act env EncoderEntry w
            = upd_encoder q EncOpen (entry_bytes env name size) w) as ->.
    { unfold act. rewrite Hs, Hq, Er. reflexivity. }
    destruct (IH (upd_encoder q EncOpen (entry_bytes env name size) w) rest
                eq_refl eq_refl eq_refl)
      as (H1 & H2 & H3 & H4 & H5 & H6 & H7 & H8 & H9).
    cbn in H3, H4, H5, H6, H7, H8, H9.
    repeat split; auto; lia.
Qed.

(** A run whose trace ends with [finalize] went through the whole [try]
    body. *)
Lemma finalized_returned fuel req :
  In EvFinalize (trace (archive env sched fuel req)) ->
  exists format w3,
    req_format req = inr format
    /\ stream_entries env sched fuel req (init_world req format) = (Ret tt, w3)
    /\ executor env sched fuel req = w3.
Proof.
  intros Hfin.
  destruct (archive_finalized env sched fuel req Hfin)
    as (format & files & lists & evs & Hf & Hres & Hent & Htrace).
  rewrite archive_trace in Htrace. unfold executor_calls in Htrace.
  rewrite Hf in Htrace.
  destruct (archiver_create env format) as [e|] eqn:Ea; [discriminate|].
  destruct (upload_check env (req_params req format)) as [e|] eqn:Eu;
    [discriminate|].
  destruct (stream_entries_spec env sched fuel req (init_world req format) eq_refl)
    as (w3 & Hstream & _).
  unfold stream_calls in Hstream. rewrite Hres, Hent in Hstream.
  cbn [fst] in Hstream.
  exists format, w3. split; [exact Hf|]. split; [exact Hstream|].
  unfold executor.
  rewrite (try_body_streaming env sched fuel req format Hf Ea Eu), Hstream.
  reflexivity.
Qed.

(** X15: the run that succeeds.  When the caller leaves the [Body] to
    the program, the run reaches [finalize], every appended stream can be
    read, and the upload does not fail, then once the encoder has
    drained its queue and ended and the upload has read the bytes and
    is confirmed, the promise resolves with the bucket and the key of
    the upload's response, and with a size that is the sum of the bytes
    of the entries in the order they were appended, plus the trailer:
    exactly what the upload has received. *)
Theorem run_resolves fuel req total data :
  req_uploadOptions req !! "Body" = None ->
  In EvFinalize (trace (archive env sched fuel req)) ->
  encoded_size env (appended (trace (archive env sched fuel req))) = Some total ->
  (forall i e, ~ In (SinkFail e) (during_await sched i)) ->
  after_return sched
  = (repeat EncoderEntry
       (List.length (appended (trace (archive env sched fuel req))))
     ++ [EncoderEnd; SinkRead total; SinkDone data])%list ->
  promise (archive env sched fuel req)
  = Resolved {| s3Bucket := data_Bucket data; fileKey := data_Key data;
                fileSize := total |}
  /\ sink_received (archive env sched fuel req) = total
  /\ enc_status (archive env sched fuel req) = EncEnded
  /\ enc_queue (archive env sched fuel req) = []
  /\ in_flight (archive env sched fuel req) = 0%N.
Proof.
  intros Hopt Hfin Hsize Hawait Hafter.
  destruct (finalized_returned fuel req Hfin) as (format & w3 & Hf & Hstream & Hex).
  assert (req_params req format !! "Body" = Some (PStream OutputStream)) as Hbody.
  { unfold req_params. rewrite upload_params_lookup_Body, Hopt. reflexivity. }
  assert (forall e, ~ scheduled sched (SinkFail e)) as Hnofail.
  { intros e [Hin | (i & Hin)]; [|exact (Hawait i e Hin)].
    rewrite Hafter in Hin. apply in_app_or in Hin as [Hin | Hin].
    - apply repeat_spec in Hin. discriminate.
    - cbn in Hin. intuition discriminate. }
  destruct (stream_entries_ready fuel req format w3 Hbody Hnofail Hstream)
    as ((Hp & Hsink & Hpiped & Hrecv) & Hq & Hfinal & Hs & Hptr & Hfl).
  assert (trace (archive env sched fuel req) = trace w3) as Htr.
  { unfold archive. rewrite run_actions_trace, Hex. reflexivity. }
  rewrite Htr in Hsize, Hafter. rewrite <- Hq in Hsize, Hafter.
  unfold archive. rewrite Hex, Hafter, run_actions_app.
  destruct (drain_queue (enc_queue w3) w3 total eq_refl Hs Hsize)
    as (D1 & D2 & D3 & D4 & D5 & D6 & D7 & D8 & D9).
  set (w4 := run_actions env (repeat EncoderEntry (List.length (enc_queue w3))) w3)
    in *.
  rewrite Hptr in D3. rewrite Hfl in D4. rewrite Hp in D5. rewrite Hsink in D6.
  rewrite Hpiped in D7. rewrite Hrecv in D8. rewrite Hfinal in D9.
  rewrite !run_actions_cons.
  assert (act env EncoderEnd w4 = upd_encoder [] EncEnded (trailer_bytes env) w4)
    as ->.
  { unfold act. rewrite D2, D1, D9. reflexivity. }
  set (w5 := upd_encoder [] EncEnded (trailer_bytes env) w4).
  assert (act env (SinkRead total) w5 = upd_sink (sink w5) total true w5) as ->.
  { unfold act. cbn [sink w5 upd_encoder piped in_flight].
    rewrite D6, Hbody, D7. cbn [andb].
    replace (total <=? in_flight w4 + trailer_bytes env)%N with true;
      [reflexivity|].
    symmetry. apply N.leb_le. lia. }
  set (w6 := upd_sink (sink w5) total true w5).
  assert (body_complete env (req_params req format) w6 = true) as Hdone.
  { unfold body_complete. rewrite Hbody. cbn. rewrite D7. cbn [andb].
    apply N.eqb_eq. lia. }
  assert (act env (SinkDone data) w6
          = upload_callback (inr data) (upd_sink SinkCalledBack 0 false w6)) as ->.
  { unfold act. cbn [sink w6 w5 upd_sink upd_encoder]. rewrite D6, Hdone.
    reflexivity. }
  unfold run_actions, fold_left, upload_callback, resolve, settle. cbn.
  rewrite D5. cbn.
  split; [f_equal; f_equal; lia|]. split; [lia|].
  split; [reflexivity|]. split; [reflexivity | lia].
Qed.

End Resolves.

(** X15 on two explicit entries of the demo store: two entries of 110
    bytes each and a trailer of 22. *)
Lemma run_resolves_witness :
  promise (archive Demo.env (Demo.drain 2 242) 0
             (Demo.request None ["a.txt"; "b.txt"] (JsStr "zip") ∅))
  = Resolved {| s3Bucket := "bucket"; fileKey := "key"; fileSize := 242 |}.
Proof.
  apply (run_resolves Demo.env (Demo.drain 2 242) 0
           (Demo.request None ["a.txt"; "b.txt"] (JsStr "zip") ∅) 242 Demo.done).
  - vm_compute. reflexivity.
  - rewrite archive_trace. vm_compute. intuition.
  - rewrite archive_trace. vm_compute. reflexivity.
  - intros i e H. exact H.
  - rewrite archive_trace. vm_compute. reflexivity.
Defined.
